(* Verification model of tenzro-c0re: chunk manager (src/storage/chunk.ts),
   k-bucket routing table (src/storage/p2p.ts), DHT protocol helpers
   (src/dht/protocol.ts) and the storage manager (src/storage/manager.ts). *)

From Stdlib Require Import String Ascii ZArith Bool Lia.
From Stdlib Require Import List Permutation Sorted.
Import ListNotations.
Open Scope Z_scope.

(* ------------------------------------------------------------------------ *)
(** * Common data: byte buffers, errors, results *)

(** A Node [Buffer]: a list of byte values (each in [0, 256)). *)
Definition Buffer := list Z.

(** [buf.slice(a, b)] for [0 <= a]. *)
Definition slice (data : Buffer) (a b : nat) : Buffer :=
  firstn (b - a) (skipn a data).

Inductive StorageErrorCode :=
| CHUNK_VALIDATION_ERROR
| NOT_FOUND
| NO_PROVIDERS
| RETRIEVE_ERROR
| STORE_ERROR.

(** Errors thrown by the code: [new StorageError(msg, {code, ...})] or a plain
    [new Error(msg)]. *)
Inductive Error :=
| StorageError (code : StorageErrorCode) (chunkIndex : option Z) (details : ErrorDetails)
| PlainError (msg : string)
with ErrorDetails :=
| NoDetails
| Cause (error : Error).

(** Outcome of an async call: resolved value or rejection. *)
Inductive Result (A : Type) :=
| Ok (a : A)
| Err (e : Error).
Arguments Ok {A} a.
Arguments Err {A} e.

(* ------------------------------------------------------------------------ *)
(** * ChunkInfo (src/storage/types.ts) *)

Record ChunkLocation := mkLocation {
  loc_nodeId : string;
  loc_storageType : string;
  loc_lastSeen : Z
}.

Record ChunkInfo := mkChunkInfo {
  ci_index : Z;
  ci_size : Z;
  ci_checksum : string;
  ci_location : ChunkLocation;
  ci_replicas : Z
}.

Section ChunkManager.

(** [createHash('sha256').update(data).digest('hex')]. *)
Variable sha256hex : Buffer -> string.

(** [calculateChecksum]. *)
Definition calculateChecksum (data : Buffer) : string := sha256hex data.

(** One iteration of the [while (offset < data.length)] loop of [split] per
    unit of [fuel]; [None] when the fuel runs out, which is the case exactly
    when the source loops forever (a chunk size of 0 on a non-empty buffer).
    [now] is the value of [Date.now()]. *)
Fixpoint split_loop (fuel : nat) (data : Buffer) (chunkSize : nat) (now : Z)
    (offset index : nat) : option (list ChunkInfo) :=
  match fuel with
  | O => None
  | S fuel' =>
      if Nat.ltb offset (length data) then
        let size := Nat.min chunkSize (length data - offset) in
        let chunk := slice data offset (offset + size) in
        let checksum := calculateChecksum chunk in
        let info := mkChunkInfo (Z.of_nat index) (Z.of_nat size) checksum
                      (mkLocation EmptyString "local"%string now) 0 in
        match split_loop fuel' data chunkSize now (offset + size) (S index) with
        | Some rest => Some (info :: rest)
        | None => None
        end
      else Some []
  end.

(** [DefaultChunkManager.split(data, chunkSize)]. *)
Definition split (data : Buffer) (chunkSize : nat) (now : Z) : option (list ChunkInfo) :=
  split_loop (S (length data)) data chunkSize now 0 0.

(** [DefaultChunkManager.validate(chunk, info)]. *)
Definition validate (chunk : Buffer) (info : ChunkInfo) : bool :=
  if negb (Z.of_nat (length chunk) =? ci_size info) then false
  else String.eqb (calculateChecksum chunk) (ci_checksum info).

(** The pairs [{info, data}] of [combine]. *)
Definition Pair := (ChunkInfo * Buffer)%type.

(** [Array.prototype.sort] with comparator [a.info.index - b.info.index]: the
    sort is stable, modelled as insertion sort that places an element after
    every element of equal index already placed. *)
Fixpoint insert_by_index (p : Pair) (l : list Pair) : list Pair :=
  match l with
  | [] => [p]
  | q :: r =>
      if ci_index (fst p) <? ci_index (fst q) then p :: q :: r
      else q :: insert_by_index p r
  end.

Definition sort_by_index (l : list Pair) : list Pair :=
  fold_left (fun acc p => insert_by_index p acc) l [].

(** The validation loop: the index of the first pair (in sorted order) that
    fails [validate], if any. *)
Fixpoint first_invalid (l : list Pair) : option Z :=
  match l with
  | [] => None
  | (info, data) :: r =>
      if validate data info then first_invalid r else Some (ci_index info)
  end.

(** [data.copy(result, offset)]: copies as many bytes as fit. *)
Definition buffer_copy (data result : Buffer) (offset : nat) : Buffer :=
  let n := Nat.min (length data) (length result - offset) in
  firstn offset result ++ firstn n data ++ skipn (offset + n) result.

Fixpoint copy_loop (l : list Pair) (result : Buffer) (offset : nat) : Buffer :=
  match l with
  | [] => result
  | (_, data) :: r =>
      copy_loop r (buffer_copy data result offset) (offset + length data)
  end.

(** [DefaultChunkManager.combine(chunks, info)]. [Buffer.allocUnsafe] returns
    uninitialised memory; it is modelled as zeros (every byte of it is
    overwritten on the paths considered). *)
Definition combine (chunks : list Buffer) (info : list ChunkInfo) : Result Buffer :=
  if negb (Nat.eqb (length chunks) (length info)) then
    Err (PlainError "Chunks and chunk info length mismatch")
  else
    let sortedPairs := sort_by_index (List.combine info chunks) in
    match first_invalid sortedPairs with
    | Some idx => Err (StorageError CHUNK_VALIDATION_ERROR (Some idx) NoDetails)
    | None =>
        let totalSize := fold_left (fun sum p => sum + ci_size (fst p)) sortedPairs 0 in
        if totalSize <? 0 then Err (PlainError "RangeError")
        else Ok (copy_loop sortedPairs (repeat 0 (Z.to_nat totalSize)) 0)
    end.

(** How the providers cut the chunk bytes out of the input for the
    descriptors of [split] (LocalStorageProvider.store:
    [data.slice(index * chunkSize, index * chunkSize + chunk.size)]). *)
Definition chunk_buffers (data : Buffer) (chunkSize : nat) (infos : list ChunkInfo)
    : list Buffer :=
  map (fun ci => let offset := (Z.to_nat (ci_index ci) * chunkSize)%nat in
                 slice data offset (offset + Z.to_nat (ci_size ci)))
      infos.

(** The number of chunks of a buffer of length [n]: [ceil(n / c)]. *)
Definition chunk_count (n c : nat) : nat := ((n + c - 1) / c)%nat.

(** The descriptor that the spec expects for chunk [i]. *)
Definition expected_chunk (data : Buffer) (c : nat) (now : Z) (i : nat) : ChunkInfo :=
  let lo := (i * c)%nat in
  let hi := Nat.min ((i + 1) * c) (length data) in
  mkChunkInfo (Z.of_nat i) (Z.of_nat (hi - lo)%nat) (sha256hex (slice data lo hi))
    (mkLocation EmptyString "local" now) 0.

(** Ordering of the pairs of [combine] by descriptor index. *)
Definition index_le (a b : Pair) : Prop := (ci_index (fst a) <= ci_index (fst b))%Z.

End ChunkManager.

(* ------------------------------------------------------------------------ *)
(** * Keys and XOR distance (DHTProtocol, src/dht/protocol.ts) *)

(** Value of one hex digit as accepted by Node's hex decoder. *)
Definition hex_digit_value (c : ascii) : option Z :=
  let n := Z.of_nat (nat_of_ascii c) in
  if (48 <=? n) && (n <=? 57) then Some (n - 48)
  else if (97 <=? n) && (n <=? 102) then Some (n - 87)
  else if (65 <=? n) && (n <=? 70) then Some (n - 55)
  else None.

(** [Buffer.from(s, 'hex')]: decodes pairs of hex digits and stops at the
    first pair that is not one (a trailing odd digit is dropped). *)
Fixpoint hex_decode (s : string) : Buffer :=
  match s with
  | String a (String b rest) =>
      match hex_digit_value a, hex_digit_value b with
      | Some x, Some y => (16 * x + y) :: hex_decode rest
      | _, _ => []
      end
  | _ => []
  end.

Definition KEY_SIZE : nat := 32.

(** [bufferA[i] ^ bufferB[i]] stored into a [Buffer]: an index past the end
    of a buffer reads [undefined], which the bitwise operator takes as 0. *)
Definition distance (keyA keyB : string) : Buffer :=
  let bufferA := hex_decode keyA in
  let bufferB := hex_decode keyB in
  map (fun i => Z.land (Z.lxor (nth i bufferA 0) (nth i bufferB 0)) 255)
      (seq 0 KEY_SIZE).

(* ------------------------------------------------------------------------ *)
(** * K-bucket routing table (KBucket, src/storage/p2p.ts) *)

(** [PeerInfo] (src/types/network.ts); the fields the routing table does not
    read are carried as they are. *)
Record PeerInfo := mkPeer {
  pi_id : string;
  pi_multiaddr : list string;
  pi_protocols : list string;
  pi_region : string;
  pi_lastSeen : Z
}.

Record Bucket := mkBucket {
  peers : list PeerInfo;
  lastUpdated : Z
}.

Record KBucket := mkKBucket {
  nodeId : string;
  kSize : nat;
  numberOfBuckets : nat;
  buckets : list Bucket
}.

(** [constructor(nodeId, kSize, numberOfBuckets)] at time [now]. *)
Definition new_KBucket (self : string) (k nb : nat) (now : Z) : KBucket :=
  mkKBucket self k nb (repeat (mkBucket [] now) nb).

(** The inner loop of [getBucketIndex] over [j = 0 .. 7]. *)
Fixpoint bit_loop (b : Z) (js : list nat) : option nat :=
  match js with
  | [] => None
  | j :: rest =>
      if negb (Z.land b (Z.shiftl 1 (Z.of_nat (7 - j))) =? 0) then Some j
      else bit_loop b rest
  end.

(** The outer loop of [getBucketIndex] over the bytes of the distance. *)
Fixpoint byte_loop (d : Buffer) (i : nat) : option nat :=
  match d with
  | [] => None
  | x :: rest =>
      if negb (x =? 0) then
        match bit_loop x (seq 0 8) with
        | Some j => Some (i * 8 + j)%nat
        | None => byte_loop rest (S i)
        end
      else byte_loop rest (S i)
  end.

(** [getBucketIndex(peerId)]. *)
Definition getBucketIndex (kb : KBucket) (peerId : string) : nat :=
  match byte_loop (distance (nodeId kb) peerId) 0 with
  | Some n => n
  | None => (numberOfBuckets kb - 1)%nat
  end.

(** A distance read as a big-endian unsigned integer (how the spec compares
    distances). *)
Definition be_value (d : Buffer) : Z := fold_left (fun acc b => acc * 256 + b) d 0.

(** [Array.prototype.findIndex], with [None] for [-1]. *)
Fixpoint find_index {A} (f : A -> bool) (l : list A) : option nat :=
  match l with
  | [] => None
  | x :: rest =>
      if f x then Some 0%nat
      else match find_index f rest with Some i => Some (S i) | None => None end
  end.

(** [arr[i] = v] for an index inside the array. *)
Fixpoint replace_nth {A} (i : nat) (v : A) (l : list A) : list A :=
  match l, i with
  | [], _ => []
  | _ :: rest, O => v :: rest
  | x :: rest, S i' => x :: replace_nth i' v rest
  end.

(** [arr.splice(i, 1)]. *)
Fixpoint remove_nth {A} (i : nat) (l : list A) : list A :=
  match l, i with
  | [], _ => []
  | _ :: rest, O => rest
  | x :: rest, S i' => x :: remove_nth i' rest
  end.

(** [{...peer, metadata: {...peer.metadata, lastSeen: Date.now()}}]. *)
Definition refreshed (p : PeerInfo) (now : Z) : PeerInfo :=
  mkPeer (pi_id p) (pi_multiaddr p) (pi_protocols p) (pi_region p) now.

Definition STALE_THRESHOLD : Z := 1 * 60 * 60 * 1000.

(** [findStalePeer(bucket)]. *)
Definition findStalePeer (bucket : Bucket) (now : Z) : option nat :=
  find_index (fun p => now - pi_lastSeen p >? STALE_THRESHOLD) (peers bucket).

(** [addPeerToBucket(bucket, peer)]: the new list of peers. *)
Definition addPeerToBucket (k : nat) (bucket : Bucket) (peer : PeerInfo) (now : Z)
    : list PeerInfo :=
  if Nat.ltb (length (peers bucket)) k then peers bucket ++ [refreshed peer now]
  else match findStalePeer bucket now with
       | Some staleIndex => replace_nth staleIndex (refreshed peer now) (peers bucket)
       | None => peers bucket
       end.

(** [addPeer(peer)] at time [now] (every [Date.now()] of one call reads the
    same [now]). [None]: [this.buckets[bucketIndex]] is [undefined] and the
    call throws. *)
Definition addPeer (kb : KBucket) (peer : PeerInfo) (now : Z) : option KBucket :=
  let bucketIndex := getBucketIndex kb (pi_id peer) in
  match nth_error (buckets kb) bucketIndex with
  | None => None
  | Some bucket =>
      let newPeers :=
        match find_index (fun p => String.eqb (pi_id p) (pi_id peer)) (peers bucket) with
        | Some existingPeerIndex =>
            replace_nth existingPeerIndex (refreshed peer now) (peers bucket)
        | None => addPeerToBucket (kSize kb) bucket peer now
        end in
      Some (mkKBucket (nodeId kb) (kSize kb) (numberOfBuckets kb)
              (replace_nth bucketIndex (mkBucket newPeers now) (buckets kb)))
  end.

(** [removePeer(peerId)] at time [now]. *)
Definition removePeer (kb : KBucket) (peerId : string) (now : Z) : option KBucket :=
  let bucketIndex := getBucketIndex kb peerId in
  match nth_error (buckets kb) bucketIndex with
  | None => None
  | Some bucket =>
      match find_index (fun p => String.eqb (pi_id p) peerId) (peers bucket) with
      | Some peerIndex =>
          Some (mkKBucket (nodeId kb) (kSize kb) (numberOfBuckets kb)
                  (replace_nth bucketIndex
                     (mkBucket (remove_nth peerIndex (peers bucket)) now) (buckets kb)))
      | None => Some kb
      end
  end.

(** Calls made on a routing table. *)
Inductive RoutingOp :=
| OpAddPeer (peer : PeerInfo) (now : Z)
| OpRemovePeer (peerId : string) (now : Z).

Definition run_op (kb : KBucket) (op : RoutingOp) : option KBucket :=
  match op with
  | OpAddPeer p now => addPeer kb p now
  | OpRemovePeer id now => removePeer kb id now
  end.

Fixpoint run_ops (kb : KBucket) (ops : list RoutingOp) : option KBucket :=
  match ops with
  | [] => Some kb
  | op :: rest =>
      match run_op kb op with
      | Some kb' => run_ops kb' rest
      | None => None
      end
  end.

(* ------------------------------------------------------------------------ *)
(** * Message validation (DHTProtocol.validateMessage) *)

(** A [DHTMessage] as received; absent fields are [None]. A timestamp that is
    absent reads [undefined]. *)
Record DHTPayload := mkPayload {
  pl_id : string;
  pl_timestamp : option Z;
  pl_sender : option string;
  pl_key : option string
}.

Record DHTMessage := mkMessage {
  msg_type : string;
  msg_dhtType : option string;
  msg_protocol : option string;
  msg_version : option string;
  msg_payload : DHTPayload
}.

(** JavaScript truthiness of an optional string. *)
Definition truthy (o : option string) : bool :=
  match o with
  | Some s => negb (String.eqb s EmptyString)
  | None => false
  end.

Definition is_lower_hex (c : ascii) : bool :=
  let n := nat_of_ascii c in
  (Nat.leb 48 n && Nat.leb n 57) || (Nat.leb 97 n && Nat.leb n 102).

Fixpoint all_chars (f : ascii -> bool) (s : string) : bool :=
  match s with
  | EmptyString => true
  | String c rest => f c && all_chars f rest
  end.

(** [/^[0-9a-f]{64}$/.test(s)]. *)
Definition key_regex_test (s : string) : bool :=
  Nat.eqb (String.length s) 64 && all_chars is_lower_hex s.

Definition MAX_TIME_DIFF : Z := 5 * 60 * 1000.

(** [validateMessage(message)] at time [now]. *)
Definition validateMessage (now : Z) (message : DHTMessage) : bool :=
  if negb (truthy (msg_dhtType message)) || negb (truthy (pl_sender (msg_payload message)))
     || negb (truthy (msg_protocol message)) || negb (truthy (msg_version message))
  then false
  else if truthy (pl_key (msg_payload message))
          && negb (match pl_key (msg_payload message) with
                   | Some k => key_regex_test k
                   | None => false
                   end)
  then false
  else match pl_timestamp (msg_payload message) with
       | Some messageTime => negb (Z.abs (now - messageTime) >? MAX_TIME_DIFF)
       | None => true (* Math.abs(NaN) > MAX_TIME_DIFF is false *)
       end.

(* ------------------------------------------------------------------------ *)
(** * Storage manager (StorageManager, src/storage/manager.ts) *)

Inductive StorageStrategy := LocalOnly | NetworkOnly | P2POnly | Hybrid.

Record StorageOptions := mkOptions {
  opt_replicas : option Z
}.

Record StorageMetadata := mkMetadata {
  md_id : string;
  md_size : Z;
  md_chunks : list ChunkInfo
}.

Record StorageRequest := mkRequest {
  req_data : Buffer;
  req_options : option StorageOptions;
  req_strategy : option StorageStrategy
}.

Record StorageManagerConfig := mkConfig {
  defaultStrategy : option StorageStrategy;
  replicationFactor : option Z
}.

Section StorageManager.

(** The state held by the storage providers (disk, DHT, peers). *)
Variable PS : Type.

(** The [StorageProvider] interface (src/storage/types.ts), each operation a
    state transformer on the provider's own state. [kind] is
    [provider.constructor.name.toLowerCase()]. *)
Record StorageProvider := mkProvider {
  kind : string;
  prov_store : Buffer -> option StorageOptions -> PS -> Result StorageMetadata * PS;
  prov_retrieve : string -> PS -> Result Buffer * PS;
  prov_validateChecksum : string -> PS -> Result bool * PS;
  prov_getMetadata : string -> PS -> Result (option StorageMetadata) * PS
}.

(** [this.providers]: the Map of providers by name, in insertion order;
    a provider is referred to by its position in it. *)
Variable providers : list (string * StorageProvider).
Variable config : StorageManagerConfig.

Inductive Event :=
| EvStored (id : string) (size : Z) (replicas : nat) (strategy : StorageStrategy)
| EvRetrieved (id : string) (size : Z) (provider : nat)
| EvReplicated (id : string) (provider : nat)
| EvReplicationFailed (id : string) (provider : nat) (error : Error).

(** State of the manager and of its providers: the state of provider [i] is
    [ms_pstate i]; [ms_cache] is [metadataCache] (the first entry for a key
    wins); [ms_events] is the sequence of events emitted. *)
Record MState := mkMState {
  ms_pstate : nat -> PS;
  ms_cache : list (string * StorageMetadata);
  ms_events : list Event
}.

(** Async methods: state passing with rejection. A rejection keeps the state
    changes made before it. *)
Definition M (A : Type) := MState -> Result A * MState.

Definition ret {A} (a : A) : M A := fun s => (Ok a, s).
Definition throw {A} (e : Error) : M A := fun s => (Err e, s).
Definition bind {A B} (m : M A) (k : A -> M B) : M B :=
  fun s => match m s with
           | (Ok a, s') => k a s'
           | (Err e, s') => (Err e, s')
           end.
(** [try { m } catch (error) { h(error) }]. *)
Definition catch {A} (m : M A) (h : Error -> M A) : M A :=
  fun s => match m s with
           | (Ok a, s') => (Ok a, s')
           | (Err e, s') => h e s'
           end.

Notation "x <- m ;; k" := (bind m (fun x => k)) (at level 61, m at next level, right associativity).
Notation "m ;;; k" := (bind m (fun _ => k)) (at level 61, right associativity).

Definition emit (e : Event) : M unit :=
  fun s => (Ok tt, mkMState (ms_pstate s) (ms_cache s) (ms_events s ++ [e])).

Definition cache_get (id : string) : M (option StorageMetadata) :=
  fun s => (Ok (option_map snd (find (fun kv => String.eqb (fst kv) id) (ms_cache s))), s).

Definition cache_set (id : string) (md : StorageMetadata) : M unit :=
  fun s => (Ok tt, mkMState (ms_pstate s) ((id, md) :: ms_cache s) (ms_events s)).

Definition update_pstate (f : nat -> PS) (i : nat) (v : PS) : nat -> PS :=
  fun j => if Nat.eqb j i then v else f j.

(** Calls an operation of provider [i] on that provider's state. *)
Definition with_provider {A} (i : nat)
    (op : StorageProvider -> PS -> Result A * PS) : M A :=
  fun s => match nth_error providers i with
           | None => (Err (PlainError "TypeError"%string), s)
           | Some (_, p) =>
               let (r, v) := op p (ms_pstate s i) in
               (r, mkMState (update_pstate (ms_pstate s) i v) (ms_cache s) (ms_events s))
           end.

(** [this.providers.get(name)] as a position. *)
Definition provider_index (name : string) : option nat :=
  find_index (fun np => String.eqb (fst np) name) providers.

(** [getProvidersForStrategy(strategy)]. *)
Definition getProvidersForStrategy (strategy : StorageStrategy) : list nat :=
  let single name := match provider_index name with Some i => [i] | None => [] end in
  match strategy with
  | LocalOnly => single "local"%string
  | NetworkOnly => single "network"%string
  | P2POnly => single "p2p"%string
  | Hybrid => seq 0 (length providers)
  end.

(** [getProvidersForMetadata(metadata)]. *)
Definition getProvidersForMetadata (metadata : StorageMetadata) : list nat :=
  filter (fun i => match nth_error providers i with
                   | Some (_, p) =>
                       existsb (fun c => String.eqb (loc_storageType (ci_location c)) (kind p))
                               (md_chunks metadata)
                   | None => false
                   end)
         (seq 0 (length providers)).

(** The loop of [findMetadata] over the providers from position [i] on. *)
Fixpoint findMetadata_loop (id : string) (ps : list nat) : M (option StorageMetadata) :=
  match ps with
  | [] => ret None
  | i :: rest =>
      r <- catch (m <- with_provider i (fun p => prov_getMetadata p id) ;; ret (Some m))
                 (fun _ => ret None) ;;
      match r with
      | Some (Some metadata) => ret (Some metadata)
      | _ => findMetadata_loop id rest
      end
  end.

(** [findMetadata(id)]. *)
Definition findMetadata (id : string) : M (option StorageMetadata) :=
  findMetadata_loop id (seq 0 (length providers)).

(** The [try] block of one iteration of the [for (const provider of
    providers)] loop of [retrieve]. *)
Definition retrieve_attempt (id : string) (metadata : StorageMetadata) (i : nat) : M Buffer :=
  data <- with_provider i (fun p => prov_retrieve p id) ;;
  ok <- with_provider i (fun p => prov_validateChecksum p id) ;;
  if negb ok then throw (PlainError "Checksum validation failed"%string)
  else emit (EvRetrieved id (md_size metadata) i) ;;; ret data.

(** The loop over [ps]; [lastError] is [details: lastError] of the final
    rejection ([NoDetails] while it is [undefined]), set by the [catch]. *)
Fixpoint retrieve_loop (id : string) (metadata : StorageMetadata) (ps : list nat)
    (lastError : ErrorDetails) : M Buffer :=
  match ps with
  | [] => throw (StorageError RETRIEVE_ERROR None lastError)
  | i :: rest =>
      catch (retrieve_attempt id metadata i)
            (fun error => retrieve_loop id metadata rest (Cause error))
  end.

(** [retrieve(id, {preferredProvider})]. *)
Definition retrieve (id : string) (preferredProvider : option string) : M Buffer :=
  cached <- cache_get id ;;
  metadata <- match cached with
              | Some m => ret (Some m)
              | None =>
                  found <- findMetadata id ;;
                  match found with
                  | Some m => cache_set id m ;;; ret (Some m)
                  | None => ret None
                  end
              end ;;
  match metadata with
  | None => throw (StorageError NOT_FOUND None NoDetails)
  | Some metadata =>
      let ps := getProvidersForMetadata metadata in
      match ps with
      | [] => throw (StorageError NO_PROVIDERS None NoDetails)
      | _ =>
          preferred <-
            (if truthy preferredProvider then
               match option_map provider_index preferredProvider with
               | Some (Some i) =>
                   catch (data <- with_provider i (fun p => prov_retrieve p id) ;;
                          ret (Some data))
                         (fun _ => ret None)
               | _ => ret None
               end
             else ret None) ;;
          match preferred with
          | Some data => ret data
          | None => retrieve_loop id metadata ps NoDetails
          end
      end
  end.

(** [replicateToProvider(metadata, provider, options)]: the [try] block. *)
Definition replicate_try (metadata : StorageMetadata) (i : nat) (options : option StorageOptions)
    : M unit :=
  data <- retrieve (md_id metadata) None ;;
  _ <- with_provider i (fun p => prov_store p data (Some (mkOptions (Some 1)))) ;;
  emit (EvReplicated (md_id metadata) i).

Definition replicateToProvider (metadata : StorageMetadata) (i : nat)
    (options : option StorageOptions) : M unit :=
  catch (replicate_try metadata i options)
        (fun error => emit (EvReplicationFailed (md_id metadata) i error)).

(** [providers.slice(0, n)] for an integer [n]. *)
Definition js_slice_prefix {A} (l : list A) (n : Z) : list A :=
  if n <? 0 then firstn (Z.to_nat (Z.of_nat (length l) + n)) l
  else firstn (Z.to_nat n) l.

(** The replication promises, run one after the other (the source starts them
    together and awaits [Promise.allSettled]; this is one of their
    schedules). *)
Fixpoint replicate_all (metadata : StorageMetadata) (targets : list nat)
    (options : option StorageOptions) : M unit :=
  match targets with
  | [] => ret tt
  | i :: rest =>
      replicateToProvider metadata i options ;;; replicate_all metadata rest options
  end.

Definition option_replicas (options : option StorageOptions) : option Z :=
  match options with Some o => opt_replicas o | None => None end.

(** [handleReplication(metadata, providers, options)]. *)
Definition handleReplication (metadata : StorageMetadata) (targets : list nat)
    (options : option StorageOptions) : M unit :=
  let rf := match option_replicas options with
            | Some r => r
            | None => match replicationFactor config with Some r => r | None => 1 end
            end in
  replicate_all metadata (js_slice_prefix targets (rf - 1)) options.

(** [request.strategy || this.config.defaultStrategy || 'hybrid']. *)
Definition resolve_strategy (request : StorageRequest) : StorageStrategy :=
  match req_strategy request with
  | Some s => s
  | None => match defaultStrategy config with Some s => s | None => Hybrid end
  end.

(** [store(request)]. *)
Definition store (request : StorageRequest) : M StorageMetadata :=
  let strategy := resolve_strategy request in
  let ps := getProvidersForStrategy strategy in
  match ps with
  | [] => throw (StorageError NO_PROVIDERS None NoDetails)
  | primary :: secondaries =>
      catch
        (primaryMetadata <- with_provider primary
                              (fun p => prov_store p (req_data request) (req_options request)) ;;
         cache_set (md_id primaryMetadata) primaryMetadata ;;;
         (if Nat.ltb 1 (length ps)
             && negb (match option_replicas (req_options request) with
                      | Some r => r =? 0
                      | None => false
                      end)
          then handleReplication primaryMetadata secondaries (req_options request)
          else ret tt) ;;;
         emit (EvStored (md_id primaryMetadata) (md_size primaryMetadata) (length ps) strategy) ;;;
         ret primaryMetadata)
        (fun error => throw (StorageError STORE_ERROR None (Cause error)))
  end.


(** ** Properties of the storage manager *)

Definition is_replication_event (e : Event) : bool :=
  match e with
  | EvReplicated _ _ | EvReplicationFailed _ _ _ => true
  | _ => false
  end.

Lemma replicateToProvider_ok (md : StorageMetadata) (i : nat) (o : option StorageOptions) (s : MState) :
  fst (replicateToProvider md i o s) = Ok tt.
Proof.
  unfold replicateToProvider, catch.
  destruct (replicate_try md i o s) as [[[]|e] s']; reflexivity.
Qed.

Lemma replicate_all_ok (md : StorageMetadata) (ts : list nat) (o : option StorageOptions) (s : MState) :
  fst (replicate_all md ts o s) = Ok tt.
Proof.
  revert s; induction ts as [|i ts IH]; intros s; [reflexivity|].
  cbn [replicate_all]. unfold bind.
  pose proof (replicateToProvider_ok md i o s) as H.
  destruct (replicateToProvider md i o s) as [[u|e] s']; cbn in H; [apply IH|discriminate].
Qed.

Lemma handleReplication_ok (md : StorageMetadata) (ts : list nat) (o : option StorageOptions) (s : MState) :
  fst (handleReplication md ts o s) = Ok tt.
Proof. unfold handleReplication. apply replicate_all_ok. Qed.

Lemma getProviders_hybrid (name : string) (p : StorageProvider) :
  nth_error providers 0 = Some (name, p) ->
  exists n, getProvidersForStrategy Hybrid = 0%nat :: seq 1 n.
Proof.
  intros H. cbn [getProvidersForStrategy].
  destruct (length providers) as [|n] eqn:E.
  - apply length_zero_iff_nil in E. rewrite E in H. destruct (0%nat); discriminate.
  - exists n. reflexivity.
Qed.

Lemma store_primary_ok (request : StorageRequest) (s : MState) (primary : nat) (secondaries : list nat)
    (name : string) (p : StorageProvider) (md : StorageMetadata) (v : PS) :
  getProvidersForStrategy (resolve_strategy request) = primary :: secondaries ->
  nth_error providers primary = Some (name, p) ->
  prov_store p (req_data request) (req_options request) (ms_pstate s primary) = (Ok md, v) ->
  fst (store request s) = Ok md.
Proof.
  intros Hps H0 Hst. unfold store. rewrite Hps.
  unfold catch, bind at 1. unfold with_provider at 1. rewrite H0, Hst.
  unfold bind, cache_set.
  match goal with |- context [if ?c then _ else _] => destruct c end.
  - match goal with |- context [handleReplication ?a ?b ?c ?d] =>
      pose proof (handleReplication_ok a b c d) as Hh;
      destruct (handleReplication a b c d) as [[[]|e] s3] end; [reflexivity|discriminate].
  - reflexivity.
Qed.

Lemma update_pstate_other (f : nat -> PS) (i j : nat) (v : PS) :
  j <> i -> update_pstate f i v j = f j.
Proof. intros H. unfold update_pstate. destruct (Nat.eqb_spec j i); [contradiction|reflexivity]. Qed.






Lemma retrieve_no_preferred_cases (id : string) (s : MState) :
  (exists md s', retrieve id None s = retrieve_loop id md (getProvidersForMetadata md) NoDetails s') \/
  (exists e s', retrieve id None s = (Err e, s')).
Proof.
  remember (retrieve id None s) as R eqn:HR.
  unfold retrieve, cache_get in HR. unfold bind at 1 in HR. cbn beta iota in HR.
  destruct (find (fun kv => String.eqb (fst kv) id) (ms_cache s)) as [[k m]|];
    cbn [option_map snd] in HR.
  - unfold bind at 1, ret at 1 in HR. cbn beta iota zeta in HR.
    destruct (getProvidersForMetadata m) as [|x xs] eqn:E.
    + right. eexists. eexists. exact HR.
    + left. exists m. eexists. rewrite E. exact HR.
  - unfold bind at 1 in HR. unfold bind at 1 in HR. cbn beta iota in HR.
    destruct (findMetadata id s) as [[[m|]|e] s1]; cbn beta iota in HR.
    + unfold bind, cache_set, ret in HR. cbn beta iota zeta in HR.
      destruct (getProvidersForMetadata m) as [|x xs] eqn:E.
      * right. eexists. eexists. exact HR.
      * left. exists m. eexists. rewrite E. exact HR.
    + right. eexists. eexists. exact HR.
    + right. eexists. eexists. exact HR.
Qed.
(** C8: under the hybrid strategy, when the primary (first) provider's [store]
    resolves with metadata [md], [store] resolves with [md], whatever the
    replication to the other providers does: every [handleReplication] call
    resolves, and a failed replication is caught by [replicateToProvider],
    which emits a [replication-failed] event and resolves. *)
Theorem store_hybrid_primary_result (request : StorageRequest) (s : MState)
    (name : string) (p : StorageProvider) (md : StorageMetadata) (v : PS) :
  resolve_strategy request = Hybrid ->
  nth_error providers 0 = Some (name, p) ->
  prov_store p (req_data request) (req_options request) (ms_pstate s 0) = (Ok md, v) ->
  fst (store request s) = Ok md /\
  (forall (ts : list nat) (s0 : MState),
     fst (handleReplication md ts (req_options request) s0) = Ok tt) /\
  (forall (i : nat) (s0 s1 : MState) (e : Error),
     replicate_try md i (req_options request) s0 = (Err e, s1) ->
     replicateToProvider md i (req_options request) s0 =
       (Ok tt, mkMState (ms_pstate s1) (ms_cache s1)
                        (ms_events s1 ++ [EvReplicationFailed (md_id md) i e]))).
Proof.
  intros Hs H0 Hst. split; [|split].
  - destruct (getProviders_hybrid name p H0) as (n & Hps).
    apply (store_primary_ok request s 0 (seq 1 n) name p md v);
      [rewrite Hs; exact Hps|exact H0|exact Hst].
  - intros ts s0. apply handleReplication_ok.
  - intros i s0 s1 e He. unfold replicateToProvider, catch. rewrite He. reflexivity.
Qed.



(** C10: with [options.replicas = 0], [store] changes no provider state but the
    primary's, and the events it emits are neither [replicated] nor
    [replication-failed]. *)
Theorem store_zero_replicas_only_primary (request : StorageRequest) (s : MState)
    (primary : nat) (secondaries : list nat) :
  getProvidersForStrategy (resolve_strategy request) = primary :: secondaries ->
  option_replicas (req_options request) = Some 0 ->
  (forall j, j <> primary -> ms_pstate (snd (store request s)) j = ms_pstate s j) /\
  exists new, ms_events (snd (store request s)) = ms_events s ++ new /\
              Forall (fun e => is_replication_event e = false) new.
Proof.
  intros Hps Hr. unfold store. rewrite Hps.
  unfold catch, bind, with_provider, throw, cache_set, emit, ret.
  destruct (nth_error providers primary) as [[nm p]|].
  - destruct (prov_store p (req_data request) (req_options request) (ms_pstate s primary))
      as [[md|e] v]; cbn [snd ms_pstate ms_events].
    + rewrite Hr, andb_false_r. cbn [snd ms_pstate ms_events].
      split; [intros j Hj; now apply update_pstate_other|].
      exists [EvStored (md_id md) (md_size md) (length (primary :: secondaries))
                (resolve_strategy request)].
      split; [reflexivity|]. repeat constructor.
    + split; [intros j Hj; now apply update_pstate_other|].
      exists []. split; [now rewrite app_nil_r|constructor].
  - cbn [snd]. split; [reflexivity|]. exists []. split; [now rewrite app_nil_r|constructor].
Qed.

End StorageManager.

(* ======================================================================== *)
(** * Properties *)

(* ------------------------------------------------------------------------ *)
(** ** Chunk manager *)

Section ChunkProofs.

Variable sha256hex : Buffer -> string.
Local Open Scope nat_scope.

Lemma chunk_count_lt (n c idx : nat) :
  0 < c -> (idx * c < n <-> idx < chunk_count n c).
Proof.
  intros Hc. unfold chunk_count. split; intros H.
  - apply Nat.lt_le_trans with (S idx); [lia|].
    apply Nat.div_le_lower_bound; lia.
  - destruct (Nat.lt_ge_cases (idx * c) n) as [Hlt|Hge]; [exact Hlt|].
    exfalso.
    assert ((n + c - 1) / c < S idx) by (apply Nat.Div0.div_lt_upper_bound; lia).
    lia.
Qed.

Lemma chunk_count_le (n c : nat) : 0 < c -> chunk_count n c <= n.
Proof.
  intros Hc. unfold chunk_count.
  destruct n as [|n].
  - rewrite Nat.div_small; lia.
  - apply Nat.lt_succ_r. apply Nat.Div0.div_lt_upper_bound; nia.
Qed.

Lemma split_loop_spec (data : Buffer) (c : nat) (now : Z) :
  0 < c ->
  forall fuel idx,
    chunk_count (length data) c - idx < fuel ->
    split_loop sha256hex fuel data c now (Nat.min (idx * c) (length data)) idx
    = Some (map (expected_chunk sha256hex data c now)
                (seq idx (chunk_count (length data) c - idx))).
Proof.
  intros Hc fuel. induction fuel as [|fuel IH]; intros idx Hfuel; [lia|].
  cbn [split_loop].
  destruct (Nat.ltb_spec (Nat.min (idx * c) (length data)) (length data)) as [Hlt|Hge].
  - assert (Hidx : idx * c < length data) by lia.
    assert (Hcnt : idx < chunk_count (length data) c) by (apply chunk_count_lt; lia).
    rewrite Nat.min_l in * by lia.
    replace (idx * c + Nat.min c (length data - idx * c))
      with (Nat.min (S idx * c) (length data)) by lia.
    rewrite IH by lia.
    replace (chunk_count (length data) c - idx)
      with (S (chunk_count (length data) c - S idx)) by lia.
    cbn [seq map]. unfold expected_chunk, calculateChecksum. do 3 f_equal.
    + f_equal. lia.
    + f_equal. f_equal. lia.
  - assert (Hcnt : chunk_count (length data) c <= idx).
    { destruct (Nat.lt_ge_cases idx (chunk_count (length data) c)) as [H|H]; [|exact H].
      apply chunk_count_lt in H; lia. }
    replace (chunk_count (length data) c - idx) with 0 by lia. reflexivity.
Qed.

Lemma split_spec (data : Buffer) (c : nat) (now : Z) :
  0 < c ->
  split sha256hex data c now
  = Some (map (expected_chunk sha256hex data c now) (seq 0 (chunk_count (length data) c))).
Proof.
  intros Hc. unfold split.
  pose proof (split_loop_spec data c now Hc (S (length data)) 0) as H.
  rewrite Nat.mul_0_l, Nat.min_0_l, Nat.sub_0_r in H.
  apply H. pose proof (chunk_count_le (length data) c Hc). lia.
Qed.


Lemma insert_by_index_perm (p : Pair) (l : list Pair) :
  Permutation (insert_by_index p l) (p :: l).
Proof.
  induction l as [|q l IH]; simpl; [reflexivity|].
  destruct (ci_index (fst p) <? ci_index (fst q))%Z; [reflexivity|].
  rewrite IH. apply perm_swap.
Qed.

Lemma insert_by_index_sorted (p : Pair) (l : list Pair) :
  Sorted index_le l -> Sorted index_le (insert_by_index p l).
Proof.
  induction 1 as [|q l Hs IH Hhd]; simpl.
  - repeat constructor.
  - destruct (Z.ltb_spec (ci_index (fst p)) (ci_index (fst q))) as [Hlt|Hge].
    + constructor; [constructor; assumption|]. constructor. unfold index_le. lia.
    + constructor; [exact IH|].
      destruct l as [|r l]; simpl.
      * constructor. unfold index_le. lia.
      * inversion Hhd; subst.
        destruct (ci_index (fst p) <? ci_index (fst r))%Z;
          constructor; unfold index_le in *; lia.
Qed.

Lemma sort_by_index_spec (l : list Pair) :
  Permutation (sort_by_index l) l /\ Sorted index_le (sort_by_index l).
Proof.
  unfold sort_by_index.
  assert (H : forall acc, Sorted index_le acc ->
            Permutation (fold_left (fun acc p => insert_by_index p acc) l acc) (l ++ acc)
            /\ Sorted index_le (fold_left (fun acc p => insert_by_index p acc) l acc)).
  { induction l as [|p l IH]; intros acc Hacc; simpl; [split; [reflexivity|exact Hacc]|].
    destruct (IH (insert_by_index p acc) (insert_by_index_sorted p acc Hacc)) as [Hp Hs].
    split; [|exact Hs].
    rewrite Hp, insert_by_index_perm. apply Permutation_sym, Permutation_middle. }
  destruct (H [] (Sorted_nil _)) as [Hp Hs]. rewrite app_nil_r in Hp. auto.
Qed.

Lemma first_invalid_none (l : list Pair) :
  first_invalid sha256hex l = None <-> Forall (fun p => validate sha256hex (snd p) (fst p) = true) l.
Proof.
  induction l as [|[info data] l IH]; simpl.
  - split; auto.
  - destruct (validate sha256hex data info) eqn:E.
    + rewrite IH. split; intros H; [constructor; auto|inversion H; auto].
    + split; intros H; [discriminate|inversion H; simpl in *; congruence].
Qed.

Lemma validate_true (chunk : Buffer) (info : ChunkInfo) :
  validate sha256hex chunk info = true <->
  Z.of_nat (length chunk) = ci_size info /\ sha256hex chunk = ci_checksum info.
Proof.
  unfold validate, calculateChecksum.
  destruct (Z.eqb_spec (Z.of_nat (length chunk)) (ci_size info)); simpl.
  - rewrite String.eqb_eq. tauto.
  - split; [discriminate|tauto].
Qed.

Lemma fold_left_size (l : list Pair) (a : Z) :
  fold_left (fun sum p => (sum + ci_size (fst p))%Z) l a
  = (a + fold_right Z.add 0 (map (fun p => ci_size (fst p)) l))%Z.
Proof.
  revert a. induction l as [|p l IH]; intros a; simpl; [lia|].
  rewrite IH. lia.
Qed.

Lemma copy_loop_concat (l : list Pair) (pre rest : Buffer) :
  length rest = fold_right Nat.add 0 (map (fun p => length (snd p)) l) ->
  copy_loop l (pre ++ rest) (length pre) = pre ++ concat (map snd l).
Proof.
  revert pre rest. induction l as [|[info d] l IH]; intros pre rest Hlen; simpl in *.
  - destruct rest; simpl in *; [now rewrite app_nil_r | lia].
  - unfold buffer_copy.
    rewrite length_app.
    replace (Nat.min (length d) (length pre + length rest - length pre)) with (length d) by lia.
    rewrite firstn_app, Nat.sub_diag, firstn_O, app_nil_r, firstn_all2 by lia.
    rewrite firstn_all.
    rewrite skipn_app, skipn_all2 by lia.
    replace (length pre + length d - length pre) with (length d) by lia.
    rewrite app_nil_l, app_assoc.
    replace (length pre + length d) with (length (pre ++ d)) by (rewrite length_app; lia).
    rewrite IH.
    + rewrite <- app_assoc. reflexivity.
    + rewrite length_skipn. lia.
Qed.

(** [combine] on pairs that all pass [validate]: the concatenation of the
    chunks in the order of [sort_by_index]. *)
Lemma combine_valid (chunks : list Buffer) (info : list ChunkInfo) :
  length chunks = length info ->
  Forall (fun p => validate sha256hex (snd p) (fst p) = true) (List.combine info chunks) ->
  combine sha256hex chunks info
  = Ok (concat (map snd (sort_by_index (List.combine info chunks)))).
Proof.
  intros Hlen Hvalid. unfold combine.
  rewrite Hlen, Nat.eqb_refl. simpl negb. cbv iota.
  destruct (sort_by_index_spec (List.combine info chunks)) as [Hperm _].
  set (sp := sort_by_index (List.combine info chunks)) in *.
  assert (Hv : Forall (fun p => validate sha256hex (snd p) (fst p) = true) sp).
  { eapply Permutation_Forall; [symmetry; exact Hperm| exact Hvalid]. }
  pose proof Hv as Hnone. apply first_invalid_none in Hnone. rewrite Hnone.
  assert (Hsum : fold_right Z.add 0%Z (map (fun p => ci_size (fst p)) sp)
                 = Z.of_nat (fold_right Nat.add 0 (map (fun p => length (snd p)) sp))).
  { clear -Hv. induction Hv as [|[i d] l Hp Hl IH]; simpl; [reflexivity|].
    apply validate_true in Hp as [Hp _]. simpl in Hp. rewrite Nat2Z.inj_add. lia. }
  rewrite fold_left_size, Hsum.
  destruct (Z.ltb_spec (0 + Z.of_nat (fold_right Nat.add 0 (map (fun p => length (snd p)) sp))) 0);
    [lia|].
  f_equal. rewrite Z.add_0_l, Nat2Z.id.
  apply (copy_loop_concat sp [] (repeat 0%Z _)). apply repeat_length.
Qed.


Lemma insert_by_index_last (p : Pair) (acc : list Pair) :
  Forall (fun q => index_le q p) acc -> insert_by_index p acc = acc ++ [p].
Proof.
  induction 1 as [|q acc Hq _ IH]; simpl; [reflexivity|].
  unfold index_le in Hq.
  destruct (Z.ltb_spec (ci_index (fst p)) (ci_index (fst q))); [lia|].
  now rewrite IH.
Qed.

Lemma sort_by_index_sorted_id (l : list Pair) :
  StronglySorted index_le l -> sort_by_index l = l.
Proof.
  unfold sort_by_index.
  assert (H : forall acc, Forall (fun a => Forall (index_le a) l) acc ->
            StronglySorted index_le l ->
            fold_left (fun acc p => insert_by_index p acc) l acc = acc ++ l).
  { induction l as [|p l IH]; intros acc Hacc Hs; simpl; [now rewrite app_nil_r|].
    inversion Hs as [|? ? Hs' Hp]; subst.
    rewrite insert_by_index_last.
    - rewrite IH; [now rewrite <- app_assoc| |exact Hs'].
      apply Forall_app. split.
      + eapply Forall_impl; [|exact Hacc]. intros a Ha. now inversion Ha.
      + constructor; [exact Hp|constructor].
    - eapply Forall_impl; [|exact Hacc]. intros a Ha. now inversion Ha. }
  intros Hs. apply H; [constructor|exact Hs].
Qed.

Lemma combine_map_seq {A B} (f : nat -> A) (g : nat -> B) (s : list nat) :
  List.combine (map f s) (map g s) = map (fun i => (f i, g i)) s.
Proof. induction s; simpl; congruence. Qed.

(** The bytes of chunk [i] of [split]. *)
Definition chunk_slice (data : Buffer) (c i : nat) : Buffer :=
  slice data (i * c) (Nat.min ((i + 1) * c) (length data)).

Lemma concat_chunk_slices (data : Buffer) (c : nat) :
  0 < c ->
  forall m j, m = chunk_count (length data) c - j ->
  concat (map (chunk_slice data c) (seq j m)) = skipn (Nat.min (j * c) (length data)) data.
Proof.
  intros Hc m. induction m as [|m IH]; intros j Hm; simpl.
  - assert (Hge : chunk_count (length data) c <= j) by lia.
    assert (length data <= j * c).
    { destruct (Nat.lt_ge_cases (j * c) (length data)) as [H|H]; [|exact H].
      apply chunk_count_lt in H; lia. }
    rewrite Nat.min_r by lia. now rewrite skipn_all.
  - assert (Hj : j * c < length data) by (apply chunk_count_lt; lia).
    rewrite IH by lia. unfold chunk_slice, slice.
    rewrite (Nat.min_l (j * c) (length data)) by lia.
    replace (Nat.min (S j * c) (length data))
      with ((Nat.min ((j + 1) * c) (length data) - j * c) + j * c) by lia.
    rewrite <- skipn_skipn. apply firstn_skipn.
Qed.

(** [C6] For every buffer of length N and chunk size C > 0, [split] returns
    ceil(N/C) descriptors; descriptor i has index i, covers bytes
    [iC, min((i+1)C, N)) with the size of that range and the SHA-256 of those
    bytes as checksum, and its size is at most C; the empty buffer yields no
    chunk. *)
Theorem split_chunk_layout (data : Buffer) (c : nat) (now : Z) :
  0 < c ->
  exists infos,
    split sha256hex data c now = Some infos /\
    length infos = chunk_count (length data) c /\
    (forall i ci, nth_error infos i = Some ci ->
       ci_index ci = Z.of_nat i /\
       ci_size ci = Z.of_nat (Nat.min ((i + 1) * c) (length data) - i * c) /\
       ci_checksum ci = sha256hex (slice data (i * c) (Nat.min ((i + 1) * c) (length data))) /\
       (ci_size ci <= Z.of_nat c)%Z) /\
    (length data = 0 -> infos = []).
Proof.
  intros Hc. eexists. split; [apply split_spec; exact Hc|].
  split; [now rewrite length_map, length_seq|].
  split.
  - intros i ci Hi. rewrite nth_error_map in Hi.
    destruct (nth_error (seq 0 (chunk_count (length data) c)) i) eqn:E; [|discriminate].
    assert (Hlt : i < length (seq 0 (chunk_count (length data) c)))
      by (apply nth_error_Some; congruence).
    rewrite length_seq in Hlt.
    assert (n = i).
    { apply nth_error_nth with (d := 0) in E. rewrite seq_nth in E by exact Hlt. lia. }
    subst n. simpl in Hi. injection Hi as <-. simpl.
    split; [reflexivity|]. split; [reflexivity|]. split; [reflexivity|]. lia.
  - intros H0. rewrite H0. unfold chunk_count.
    rewrite Nat.div_small by lia. reflexivity.
Qed.

(** [C3] For chunks paired one-to-one with descriptors: if some chunk's length
    differs from its descriptor's size or its SHA-256 from the descriptor's
    checksum, [combine] fails with [CHUNK_VALIDATION_ERROR] (no data);
    otherwise it returns the concatenation of the chunks in an order sorted by
    descriptor index, of length the sum of the descriptor sizes. *)
Theorem combine_validation_and_concat (chunks : list Buffer) (info : list ChunkInfo) :
  length chunks = length info ->
  ((exists ci d, In (ci, d) (List.combine info chunks) /\
      (Z.of_nat (length d) <> ci_size ci \/ sha256hex d <> ci_checksum ci)) ->
   exists idx, combine sha256hex chunks info
               = Err (StorageError CHUNK_VALIDATION_ERROR (Some idx) NoDetails)) /\
  ((forall ci d, In (ci, d) (List.combine info chunks) ->
      Z.of_nat (length d) = ci_size ci /\ sha256hex d = ci_checksum ci) ->
   exists sorted out,
     Permutation sorted (List.combine info chunks) /\
     Sorted index_le sorted /\
     out = concat (map snd sorted) /\
     combine sha256hex chunks info = Ok out /\
     Z.of_nat (length out) = fold_right Z.add 0%Z (map ci_size info)).
Proof.
  intros Hlen.
  destruct (sort_by_index_spec (List.combine info chunks)) as [Hperm Hsorted].
  split.
  - intros (ci & d & Hin & Hbad).
    unfold combine. rewrite Hlen, Nat.eqb_refl. simpl negb. cbv iota.
    destruct (first_invalid sha256hex (sort_by_index (List.combine info chunks))) eqn:E.
    + eexists. reflexivity.
    + exfalso. apply first_invalid_none in E.
      eapply Permutation_Forall in E; [|exact Hperm].
      rewrite Forall_forall in E. apply E in Hin. apply validate_true in Hin.
      simpl in Hin. tauto.
  - intros Hok.
    assert (Hv : Forall (fun p => validate sha256hex (snd p) (fst p) = true)
                        (List.combine info chunks)).
    { rewrite Forall_forall. intros [ci d] Hin. apply validate_true. auto. }
    exists (sort_by_index (List.combine info chunks)).
    exists (concat (map snd (sort_by_index (List.combine info chunks)))).
    split; [exact Hperm|]. split; [exact Hsorted|]. split; [reflexivity|].
    split; [apply combine_valid; assumption|].
    rewrite length_concat, map_map.
    transitivity (Z.of_nat (fold_right Nat.add 0 (map (fun p => length (snd p))
                                                    (List.combine info chunks)))).
    + f_equal. apply Permutation_list_sum. apply Permutation_map. exact Hperm.
    + clear Hperm Hsorted Hv. revert chunks Hlen Hok.
      induction info as [|ci info IH]; intros [|d chunks] Hlen Hok; simpl in *; try lia.
      destruct (Hok ci d (or_introl eq_refl)) as [Hs _].
      rewrite Nat2Z.inj_add, IH; [lia|lia|].
      intros ci' d' Hin. apply Hok. now right.
Qed.

(** [C1] For every buffer x and chunk size 1 <= C <= |x|, [combine] applied to
    the chunks of [split x C] (cut from x as the providers do) and their
    descriptors gives back x. *)
Theorem combine_split_roundtrip (x : Buffer) (c : nat) (now : Z) :
  1 <= c -> c <= length x ->
  exists infos,
    split sha256hex x c now = Some infos /\
    combine sha256hex (chunk_buffers x c infos) infos = Ok x.
Proof.
  intros Hc _.
  set (cnt := chunk_count (length x) c).
  exists (map (expected_chunk sha256hex x c now) (seq 0 cnt)).
  split; [apply split_spec; lia|].
  assert (Hbuf : chunk_buffers x c (map (expected_chunk sha256hex x c now) (seq 0 cnt))
                 = map (chunk_slice x c) (seq 0 cnt)).
  { unfold chunk_buffers. rewrite map_map. apply map_ext_in.
    intros i Hi. apply in_seq in Hi.
    assert (i * c < length x) by (apply chunk_count_lt; lia).
    unfold expected_chunk, chunk_slice. simpl. rewrite !Nat2Z.id. f_equal. lia. }
  rewrite Hbuf, combine_valid.
  - rewrite combine_map_seq, sort_by_index_sorted_id.
    + rewrite map_map. simpl.
      change (map (fun i => chunk_slice x c i)) with (map (chunk_slice x c)).
      rewrite (concat_chunk_slices x c ltac:(lia) cnt 0) by lia.
      reflexivity.
    + assert (Hgen : forall m j, StronglySorted index_le
                       (map (fun i => (expected_chunk sha256hex x c now i, chunk_slice x c i))
                            (seq j m))).
      { induction m as [|m IH]; intros j; simpl; constructor; [apply IH|].
        rewrite Forall_map, Forall_forall. intros i Hi. apply in_seq in Hi.
        unfold index_le. simpl. lia. }
      apply Hgen.
  - now rewrite !length_map.
  - rewrite combine_map_seq, Forall_map, Forall_forall. intros i Hi. apply in_seq in Hi. simpl.
    assert (i * c < length x) by (apply chunk_count_lt; lia).
    apply validate_true. unfold expected_chunk, chunk_slice, slice. simpl.
    split; [|reflexivity].
    rewrite length_firstn, length_skipn. f_equal. lia.
Qed.

End ChunkProofs.

(* ------------------------------------------------------------------------ *)
(** ** XOR metric and bucket index *)

Section BucketIndexProofs.

Definition byte_range (d : Buffer) : Prop := Forall (fun b => 0 <= b < 256) d.

Lemma bit_loop_byte (b : Z) :
  0 < b < 256 -> bit_loop b (seq 0 8) = Some (Z.to_nat (7 - Z.log2 b)).
Proof.
  intros Hb.
  assert (Hall : forallb (fun n => match bit_loop (Z.of_nat n) (seq 0 8) with
                                   | Some j => Nat.eqb j (Z.to_nat (7 - Z.log2 (Z.of_nat n)))
                                   | None => false
                                   end) (seq 1 255) = true) by (vm_compute; reflexivity).
  rewrite forallb_forall in Hall.
  specialize (Hall (Z.to_nat b)).
  rewrite Z2Nat.id in Hall by lia.
  destruct (bit_loop b (seq 0 8)) as [j|].
  - apply Nat.eqb_eq in Hall; [now subst|]. apply in_seq. lia.
  - discriminate Hall. apply in_seq. lia.
Qed.

Lemma be_value_acc (d : Buffer) (a : Z) :
  fold_left (fun acc b => acc * 256 + b) d a = a * 256 ^ Z.of_nat (length d) + be_value d.
Proof.
  revert a. induction d as [|x d IH]; intros a.
  - unfold be_value. simpl. lia.
  - assert (E : be_value (x :: d) = (0 * 256 + x) * 256 ^ Z.of_nat (length d) + be_value d).
    { unfold be_value at 1. cbn [fold_left]. apply IH. }
    rewrite E. cbn [fold_left length]. rewrite IH.
    rewrite Nat2Z.inj_succ, Z.pow_succ_r by lia. ring.
Qed.

Lemma be_value_cons (x : Z) (d : Buffer) :
  be_value (x :: d) = x * 256 ^ Z.of_nat (length d) + be_value d.
Proof. unfold be_value at 1. cbn [fold_left]. rewrite be_value_acc. lia. Qed.

Lemma be_value_range (d : Buffer) :
  byte_range d -> 0 <= be_value d < 256 ^ Z.of_nat (length d).
Proof.
  induction 1 as [|x d Hx Hd IH].
  - unfold be_value. simpl. lia.
  - rewrite be_value_cons. simpl length. rewrite Nat2Z.inj_succ, Z.pow_succ_r by lia.
    nia.
Qed.

Lemma log2_shifted (x v n : Z) :
  0 < x -> 0 <= n -> 0 <= v < 2 ^ n -> Z.log2 (x * 2 ^ n + v) = Z.log2 x + n.
Proof.
  intros Hx Hn Hv. apply Z.log2_unique; [pose proof (Z.log2_nonneg x); lia|].
  pose proof (Z.log2_spec x Hx) as [Hlo Hhi].
  pose proof (Z.log2_nonneg x) as Hl.
  rewrite Z.pow_succ_r by lia.
  rewrite Z.pow_add_r by lia.
  rewrite Z.pow_succ_r in Hhi by lia.
  assert (0 < 2 ^ n) by (apply Z.pow_pos_nonneg; lia).
  set (A := 2 ^ Z.log2 x) in *. set (B := 2 ^ n) in *.
  split; nia.
Qed.

Lemma byte_loop_value (d : Buffer) (i : nat) :
  byte_range d ->
  byte_loop d i =
  if be_value d =? 0 then None
  else Some (Z.to_nat (Z.of_nat i * 8 + 8 * Z.of_nat (length d) - 1 - Z.log2 (be_value d))).
Proof.
  intros Hd. revert i. induction Hd as [|x d Hx Hd IH]; intros i; [reflexivity|].
  cbn [byte_loop]. rewrite be_value_cons.
  pose proof (be_value_range d Hd) as Hr.
  assert (H256 : 256 ^ Z.of_nat (length d) = 2 ^ (8 * Z.of_nat (length d))).
  { rewrite Z.pow_mul_r by lia. reflexivity. }
  destruct (Z.eqb_spec x 0) as [->|Hx0]; simpl negb; cbv iota.
  - rewrite IH. simpl (0 * _). rewrite Z.add_0_l.
    destruct (be_value d =? 0); [reflexivity|].
    f_equal. f_equal. simpl length. lia.
  - rewrite bit_loop_byte by lia.
    assert (Hpos : 0 < x * 256 ^ Z.of_nat (length d) + be_value d) by nia.
    destruct (Z.eqb_spec (x * 256 ^ Z.of_nat (length d) + be_value d) 0) as [E|_]; [lia|].
    f_equal. rewrite H256 in *.
    rewrite log2_shifted by lia.
    pose proof (Z.log2_nonneg x).
    assert (Z.log2 x <= 7).
    { apply Z.lt_succ_r. apply Z.log2_lt_pow2; lia. }
    simpl length. lia.
Qed.

Lemma distance_bytes (a b : string) :
  byte_range (distance a b) /\ length (distance a b) = 32%nat.
Proof.
  unfold distance. split; [|now rewrite length_map, length_seq].
  apply Forall_map, Forall_forall. intros i _.
  change 255 with (Z.ones 8). rewrite Z.land_ones by lia.
  apply Z.mod_pos_bound. lia.
Qed.

End BucketIndexProofs.

Lemma bucket_index_formula (kb : KBucket) (peerId : string) :
  getBucketIndex kb peerId =
  if be_value (distance (nodeId kb) peerId) =? 0 then (numberOfBuckets kb - 1)%nat
  else Z.to_nat (255 - Z.log2 (be_value (distance (nodeId kb) peerId))).
Proof.
  unfold getBucketIndex.
  destruct (distance_bytes (nodeId kb) peerId) as [Hr Hl].
  rewrite (byte_loop_value _ 0 Hr), Hl.
  destruct (be_value (distance (nodeId kb) peerId) =? 0); [reflexivity|].
  f_equal.
Qed.

Lemma bucket_index_bound (kb : KBucket) (peerId : string) :
  numberOfBuckets kb = 256%nat -> (getBucketIndex kb peerId < 256)%nat.
Proof.
  intros Hnb. rewrite bucket_index_formula, Hnb.
  destruct (be_value (distance (nodeId kb) peerId) =? 0); [lia|].
  pose proof (Z.log2_nonneg (be_value (distance (nodeId kb) peerId))). lia.
Qed.

(* ------------------------------------------------------------------------ *)
(** ** Lists updated by position *)

Section ListUpdates.

Context {A : Type}.

Lemma find_index_some (f : A -> bool) (l : list A) (i : nat) :
  find_index f l = Some i ->
  exists pre q post, l = pre ++ q :: post /\ length pre = i /\ f q = true /\
                     Forall (fun x => f x = false) pre.
Proof.
  revert i. induction l as [|x l IH]; intros i H; simpl in H; [discriminate|].
  destruct (f x) eqn:Fx.
  - injection H as <-. exists [], x, l. repeat split; auto.
  - destruct (find_index f l) as [j|] eqn:E; [|discriminate].
    injection H as <-. destruct (IH j eq_refl) as (pre & q & post & -> & <- & Hq & Hpre).
    exists (x :: pre), q, post. repeat split; auto.
Qed.

Lemma find_index_none (f : A -> bool) (l : list A) :
  find_index f l = None -> Forall (fun x => f x = false) l.
Proof.
  induction l as [|x l IH]; simpl; intros H; [constructor|].
  destruct (f x) eqn:Fx; [discriminate|].
  destruct (find_index f l); [discriminate|]. constructor; auto.
Qed.

Lemma find_index_app (f : A -> bool) (pre post : list A) (q : A) :
  Forall (fun x => f x = false) pre -> f q = true ->
  find_index f (pre ++ q :: post) = Some (length pre).
Proof.
  intros Hpre Hq. induction Hpre as [|x pre Hx _ IH]; simpl; [now rewrite Hq|].
  now rewrite Hx, IH.
Qed.

Lemma find_index_absent (f : A -> bool) (l : list A) :
  Forall (fun x => f x = false) l -> find_index f l = None.
Proof. induction 1 as [|x l Hx _ IH]; simpl; [reflexivity|]. now rewrite Hx, IH. Qed.

Lemma replace_nth_app (pre post : list A) (q v : A) :
  replace_nth (length pre) v (pre ++ q :: post) = pre ++ v :: post.
Proof. induction pre as [|x pre IH]; simpl; congruence. Qed.

Lemma length_replace_nth (i : nat) (v : A) (l : list A) :
  length (replace_nth i v l) = length l.
Proof. revert i. induction l; intros [|i]; simpl; auto. Qed.

Lemma nth_error_replace_nth_eq (i : nat) (v : A) (l : list A) :
  (i < length l)%nat -> nth_error (replace_nth i v l) i = Some v.
Proof. revert i. induction l; intros [|i] H; simpl in *; auto; try lia. apply IHl. lia. Qed.

Lemma nth_error_replace_nth_ne (i j : nat) (v : A) (l : list A) :
  i <> j -> nth_error (replace_nth i v l) j = nth_error l j.
Proof.
  revert i j. induction l; intros [|i] [|j] H; simpl; auto; try lia;
  apply IHl; lia.
Qed.

Lemma in_replace_nth (i : nat) (v x : A) (l : list A) :
  In x (replace_nth i v l) -> x = v \/ In x l.
Proof.
  revert i. induction l as [|y l IH]; intros [|i] H; simpl in *; auto.
  - destruct H; auto.
  - destruct H as [H|H]; auto. destruct (IH i H); auto.
Qed.

Lemma map_replace_nth {B} (f : A -> B) (i : nat) (v : A) (l : list A) :
  map f (replace_nth i v l) = replace_nth i (f v) (map f l).
Proof. revert i. induction l; intros [|i]; simpl; congruence. Qed.

Lemma replace_nth_same (i : nat) (x : A) (l : list A) :
  nth_error l i = Some x -> replace_nth i x l = l.
Proof.
  revert i. induction l as [|y l IH]; intros [|i] H; simpl in *; try discriminate.
  - congruence.
  - now rewrite IH.
Qed.

Lemma NoDup_replace_nth (i : nat) (v : A) (l : list A) :
  NoDup l -> ~ In v l -> NoDup (replace_nth i v l).
Proof.
  revert i. induction l as [|y l IH]; intros [|i] Hnd Hv; simpl; auto.
  - inversion Hnd; subst. constructor; auto. intros H. apply Hv. now right.
  - inversion Hnd as [|? ? Hy Hl]; subst. constructor.
    + intros H. apply in_replace_nth in H as [H|H].
      * subst. apply Hv. now left.
      * contradiction.
    + apply IH; auto. intros H. apply Hv. now right.
Qed.

Lemma in_remove_nth (i : nat) (x : A) (l : list A) :
  In x (remove_nth i l) -> In x l.
Proof.
  revert i. induction l as [|y l IH]; intros [|i] H; simpl in *; auto.
  destruct H; auto. right. eapply IH; eauto.
Qed.

Lemma length_remove_nth (i : nat) (l : list A) :
  (length (remove_nth i l) <= length l)%nat.
Proof. revert i. induction l; intros [|i]; simpl; auto; try lia. specialize (IHl i). lia. Qed.

Lemma map_remove_nth {B} (f : A -> B) (i : nat) (l : list A) :
  map f (remove_nth i l) = remove_nth i (map f l).
Proof. revert i. induction l; intros [|i]; simpl; congruence. Qed.

Lemma NoDup_remove_nth (i : nat) (l : list A) :
  NoDup l -> NoDup (remove_nth i l).
Proof.
  revert i. induction l as [|y l IH]; intros [|i] Hnd; simpl; auto.
  - now inversion Hnd.
  - inversion Hnd as [|? ? Hy Hl]; subst. constructor; auto.
    intros H. apply in_remove_nth in H. contradiction.
Qed.

End ListUpdates.

(* ------------------------------------------------------------------------ *)
(** ** Routing table *)

Section RoutingProofs.

Lemma find_index_some_nth {A} (f : A -> bool) (l : list A) (i : nat) :
  find_index f l = Some i -> exists q, nth_error l i = Some q /\ f q = true.
Proof.
  intros H. apply find_index_some in H as (pre & q & post & -> & <- & Hq & _).
  exists q. split; [|exact Hq].
  rewrite nth_error_app2 by lia. now rewrite Nat.sub_diag.
Qed.

Lemma NoDup_snoc {A} (l : list A) (x : A) :
  NoDup l -> ~ In x l -> NoDup (l ++ [x]).
Proof.
  induction 1 as [|y l Hy Hl IH]; intros Hx; simpl; [repeat constructor; auto|].
  constructor.
  - rewrite in_app_iff. intros [H|[H|H]]; [contradiction| |contradiction].
    subst. apply Hx. now left.
  - apply IH. intros H. apply Hx. now right.
Qed.

Lemma getBucketIndex_same (kb kb' : KBucket) :
  nodeId kb' = nodeId kb -> numberOfBuckets kb' = numberOfBuckets kb ->
  forall id, getBucketIndex kb' id = getBucketIndex kb id.
Proof. intros H1 H2 id. unfold getBucketIndex. now rewrite H1, H2. Qed.

(** Each bucket is within capacity, holds distinct ids, and holds only peers
    whose bucket index is its own position. *)
Definition table_inv (kb : KBucket) : Prop :=
  numberOfBuckets kb = 256%nat /\ length (buckets kb) = 256%nat /\
  forall b bucket, nth_error (buckets kb) b = Some bucket ->
    (length (peers bucket) <= kSize kb)%nat /\ NoDup (map pi_id (peers bucket)) /\
    Forall (fun p => getBucketIndex kb (pi_id p) = b) (peers bucket).

Lemma table_inv_new (self : string) (k : nat) (t0 : Z) :
  table_inv (new_KBucket self k 256 t0).
Proof.
  unfold new_KBucket, table_inv. cbn [buckets numberOfBuckets kSize].
  split; [reflexivity|]. split; [apply repeat_length|].
  intros b bucket H. apply nth_error_In, repeat_spec in H. subst. simpl.
  repeat constructor. lia.
Qed.

Lemma bucket_props_transfer (kb kb' : KBucket) (bucket : Bucket) (j : nat) :
  nodeId kb' = nodeId kb -> numberOfBuckets kb' = numberOfBuckets kb -> kSize kb' = kSize kb ->
  (length (peers bucket) <= kSize kb)%nat /\ NoDup (map pi_id (peers bucket)) /\
  Forall (fun p => getBucketIndex kb (pi_id p) = j) (peers bucket) ->
  (length (peers bucket) <= kSize kb')%nat /\ NoDup (map pi_id (peers bucket)) /\
  Forall (fun p => getBucketIndex kb' (pi_id p) = j) (peers bucket).
Proof.
  intros H1 H2 H3 (Hk & Hnd & Hidx). rewrite H3.
  split; [exact Hk|]. split; [exact Hnd|].
  eapply Forall_impl; [|exact Hidx]. intros p Hp.
  rewrite (getBucketIndex_same kb kb' H1 H2). exact Hp.
Qed.

(** The peers of the bucket updated by [addPeer] keep the invariant. *)
Lemma addPeer_new_peers_ok (kb : KBucket) (bucket : Bucket) (peer : PeerInfo) (now : Z) (b : nat) :
  getBucketIndex kb (pi_id peer) = b ->
  (length (peers bucket) <= kSize kb)%nat -> NoDup (map pi_id (peers bucket)) ->
  Forall (fun p => getBucketIndex kb (pi_id p) = b) (peers bucket) ->
  let newPeers :=
    match find_index (fun p => String.eqb (pi_id p) (pi_id peer)) (peers bucket) with
    | Some i => replace_nth i (refreshed peer now) (peers bucket)
    | None => addPeerToBucket (kSize kb) bucket peer now
    end in
  (length newPeers <= kSize kb)%nat /\ NoDup (map pi_id newPeers) /\
  Forall (fun p => getBucketIndex kb (pi_id p) = b) newPeers.
Proof.
  intros Hb Hk Hnd Hidx newPeers. subst newPeers.
  assert (Hrep : forall i, Forall (fun p => getBucketIndex kb (pi_id p) = b)
                             (replace_nth i (refreshed peer now) (peers bucket))).
  { intros i. rewrite Forall_forall in *. intros x Hx.
    apply in_replace_nth in Hx as [->|Hx]; [cbn [refreshed pi_id]; exact Hb|apply Hidx; exact Hx]. }
  destruct (find_index _ (peers bucket)) as [i|] eqn:E.
  - destruct (find_index_some_nth _ _ _ E) as (q & Hq & Heq).
    apply String.eqb_eq in Heq.
    split; [now rewrite length_replace_nth|]. split; [|apply Hrep].
    rewrite map_replace_nth. cbn [refreshed pi_id]. rewrite <- Heq, replace_nth_same; [exact Hnd|].
    now rewrite nth_error_map, Hq.
  - apply find_index_none in E.
    assert (Hnot : ~ In (pi_id peer) (map pi_id (peers bucket))).
    { rewrite in_map_iff. intros (x & Hx & Hin). rewrite Forall_forall in E.
      apply E in Hin. apply String.eqb_neq in Hin. contradiction. }
    unfold addPeerToBucket.
    destruct (Nat.ltb_spec (length (peers bucket)) (kSize kb)).
    + rewrite length_app, map_app. cbn [length map]. split; [lia|]. split.
      * now apply NoDup_snoc.
      * apply Forall_app. split; [exact Hidx|]. constructor; [cbn [refreshed pi_id]; exact Hb|constructor].
    + destruct (findStalePeer bucket now) as [s|].
      * split; [now rewrite length_replace_nth|]. split; [|apply Hrep].
        rewrite map_replace_nth. now apply NoDup_replace_nth.
      * split; [exact Hk|]. split; [exact Hnd|exact Hidx].
Qed.

Lemma table_inv_replace (kb : KBucket) (b : nat) (bucket' : Bucket) :
  table_inv kb -> (b < length (buckets kb))%nat ->
  (length (peers bucket') <= kSize kb)%nat -> NoDup (map pi_id (peers bucket')) ->
  Forall (fun p => getBucketIndex kb (pi_id p) = b) (peers bucket') ->
  table_inv (mkKBucket (nodeId kb) (kSize kb) (numberOfBuckets kb)
               (replace_nth b bucket' (buckets kb))).
Proof.
  intros (Hnb & Hlen & Hb) Hlt Hk Hnd Hidx.
  split; [exact Hnb|]. split; [cbn [buckets]; now rewrite length_replace_nth|].
  intros j bucket'' Hj. cbn [buckets] in Hj.
  apply bucket_props_transfer with (kb := kb); [reflexivity|reflexivity|reflexivity|].
  destruct (Nat.eq_dec j b) as [->|Hne].
  - rewrite nth_error_replace_nth_eq in Hj by exact Hlt.
    injection Hj as <-. split; [exact Hk|]. split; [exact Hnd|exact Hidx].
  - rewrite nth_error_replace_nth_ne in Hj by congruence. exact (Hb j bucket'' Hj).
Qed.

Lemma addPeer_inv (kb : KBucket) (peer : PeerInfo) (now : Z) :
  table_inv kb -> exists kb', addPeer kb peer now = Some kb' /\ table_inv kb'.
Proof.
  intros Hinv. pose proof Hinv as (Hnb & Hlen & Hb).
  unfold addPeer.
  remember (getBucketIndex kb (pi_id peer)) as b eqn:Hbdef.
  assert (Hlt : (b < length (buckets kb))%nat)
    by (rewrite Hlen, Hbdef; apply bucket_index_bound; exact Hnb).
  destruct (nth_error (buckets kb) b) as [bucket|] eqn:Hbk;
    [|apply nth_error_None in Hbk; lia].
  destruct (Hb b bucket Hbk) as (Hk & Hnd & Hidx).
  destruct (addPeer_new_peers_ok kb bucket peer now b (eq_sym Hbdef) Hk Hnd Hidx)
    as (Hk' & Hnd' & Hidx').
  eexists. split; [reflexivity|].
  apply table_inv_replace; [exact Hinv|exact Hlt|exact Hk'|exact Hnd'|exact Hidx'].
Qed.

Lemma removePeer_inv (kb : KBucket) (peerId : string) (now : Z) :
  table_inv kb -> exists kb', removePeer kb peerId now = Some kb' /\ table_inv kb'.
Proof.
  intros Hinv. pose proof Hinv as (Hnb & Hlen & Hb).
  unfold removePeer.
  remember (getBucketIndex kb peerId) as b eqn:Hbdef.
  assert (Hlt : (b < length (buckets kb))%nat)
    by (rewrite Hlen, Hbdef; apply bucket_index_bound; exact Hnb).
  destruct (nth_error (buckets kb) b) as [bucket|] eqn:Hbk;
    [|apply nth_error_None in Hbk; lia].
  destruct (find_index _ (peers bucket)) as [i|] eqn:E;
    [|exists kb; split; [reflexivity|exact Hinv]].
  destruct (Hb b bucket Hbk) as (Hk & Hnd & Hidx).
  eexists. split; [reflexivity|].
  apply table_inv_replace; [exact Hinv|exact Hlt| | |]; cbn [peers].
  - pose proof (length_remove_nth i (peers bucket)); lia.
  - rewrite map_remove_nth; now apply NoDup_remove_nth.
  - rewrite Forall_forall in Hidx |- *. intros x Hx. apply Hidx. eapply in_remove_nth; exact Hx.
Qed.

Lemma run_ops_inv (kb : KBucket) (ops : list RoutingOp) :
  table_inv kb -> exists kb', run_ops kb ops = Some kb' /\ table_inv kb'.
Proof.
  revert kb. induction ops as [|op ops IH]; intros kb Hinv; cbn [run_ops];
    [exists kb; split; [reflexivity|exact Hinv]|].
  destruct op as [p now|id now]; cbn [run_op].
  - destruct (addPeer_inv kb p now Hinv) as (kb1 & -> & H1). apply IH; exact H1.
  - destruct (removePeer_inv kb id now Hinv) as (kb1 & -> & H1). apply IH; exact H1.
Qed.

End RoutingProofs.

(* ------------------------------------------------------------------------ *)
(** ** Concrete ids and peers used by the examples below *)

Fixpoint hex_repeat (n : nat) (c : string) : string :=
  match n with
  | O => EmptyString
  | S n' => c ++ hex_repeat n' c
  end.

Definition id_zero : string := hex_repeat 64 "0".
Definition id_one : string := hex_repeat 63 "0" ++ "1".
Definition id_two : string := hex_repeat 63 "0" ++ "2".
Definition id_three : string := hex_repeat 63 "0" ++ "3".
Definition id_top : string := "8" ++ hex_repeat 63 "0".

Definition peer_at (id : string) (t : Z) : PeerInfo := mkPeer id [] [] EmptyString t.

Definition empty_table : KBucket := new_KBucket id_zero 20 256 0.

Lemma addPeer_fields (kb kb' : KBucket) (peer : PeerInfo) (now : Z) :
  addPeer kb peer now = Some kb' ->
  nodeId kb' = nodeId kb /\ kSize kb' = kSize kb /\ numberOfBuckets kb' = numberOfBuckets kb.
Proof.
  unfold addPeer. destruct (nth_error (buckets kb) _); [|discriminate].
  intros H. injection H as <-. repeat split.
Qed.

Lemma removePeer_fields (kb kb' : KBucket) (peerId : string) (now : Z) :
  removePeer kb peerId now = Some kb' ->
  nodeId kb' = nodeId kb /\ kSize kb' = kSize kb /\ numberOfBuckets kb' = numberOfBuckets kb.
Proof.
  unfold removePeer. destruct (nth_error (buckets kb) _); [|discriminate].
  destruct (find_index _ _); intros H; injection H as <-; repeat split.
Qed.

Lemma run_op_add (kb : KBucket) (p : PeerInfo) (now : Z) :
  run_op kb (OpAddPeer p now) = addPeer kb p now.
Proof. reflexivity. Qed.

Lemma run_op_remove (kb : KBucket) (id : string) (now : Z) :
  run_op kb (OpRemovePeer id now) = removePeer kb id now.
Proof. reflexivity. Qed.

Lemma run_ops_fields (ops : list RoutingOp) :
  forall kb kb', run_ops kb ops = Some kb' -> kSize kb' = kSize kb.
Proof.
  induction ops as [|op ops IH]; intros kb kb' H; cbn [run_ops] in H.
  - injection H as <-. reflexivity.
  - destruct (run_op kb op) as [kb1|] eqn:E; [|discriminate].
    rewrite (IH kb1 kb' H).
    destruct op as [p now|id now].
    + rewrite run_op_add in E. destruct (addPeer_fields kb kb1 p now E) as (_ & Hk & _). exact Hk.
    + rewrite run_op_remove in E. destruct (removePeer_fields kb kb1 id now E) as (_ & Hk & _). exact Hk.
Qed.

(* ------------------------------------------------------------------------ *)
(** ** Routing-table claims *)

(** C2 (counterexample): the closest distinct pair (distance 1) lands in
    bucket 255 and a pair whose distance has its top bit set lands in bucket 0,
    the reverse of "0 = closest, 255 = farthest". *)
Lemma bucket_index_closest_is_255 :
  getBucketIndex empty_table id_one = 255%nat /\
  getBucketIndex empty_table id_top = 0%nat.
Proof. split; vm_compute; reflexivity. Qed.

(** C2 (amended): [getBucketIndex] returns the number of leading zero bits of
    the 256-bit distance, i.e. 255 minus the position of its most-significant
    set bit (bit 0 = least significant): 0 for the farthest pairs, 255 for the
    closest distinct pairs; a zero distance gives [numberOfBuckets - 1]. *)
Theorem getBucketIndex_leading_zeros (kb : KBucket) (peerId : string) :
  getBucketIndex kb peerId =
    if be_value (distance (nodeId kb) peerId) =? 0
    then (numberOfBuckets kb - 1)%nat
    else Z.to_nat (255 - Z.log2 (be_value (distance (nodeId kb) peerId))).
Proof. apply bucket_index_formula. Qed.

(** C4 (counterexample): adding A, then B, then A again to the same bucket
    leaves A at the head: an existing peer is updated in place, not moved to
    the tail. *)
Lemma addPeer_existing_stays_in_place :
  match run_ops empty_table
          [OpAddPeer (peer_at id_two 0) 0; OpAddPeer (peer_at id_three 0) 0;
           OpAddPeer (peer_at id_two 0) 10] with
  | Some kb => option_map (fun b => map pi_id (peers b)) (nth_error (buckets kb) 254)
               = Some [id_two; id_three]
  | None => False
  end.
Proof. vm_compute. reflexivity. Qed.

(** C4 (amended): [addPeer] updates the bucket [b] given by [getBucketIndex]:
    an existing peer with the same id (the first one) is replaced in place by
    the peer with [lastSeen] refreshed; otherwise the peer is appended when the
    bucket holds fewer than [k] peers; otherwise the first peer with
    [now - lastSeen > STALE_THRESHOLD] is replaced in place; otherwise the
    peers are unchanged. The bucket's [lastUpdated] is set to [now] in every
    case and the other buckets are unchanged. *)
Theorem addPeer_bucket_update (kb : KBucket) (peer : PeerInfo) (now : Z) (bucket : Bucket) :
  nth_error (buckets kb) (getBucketIndex kb (pi_id peer)) = Some bucket ->
  exists newPeers,
    addPeer kb peer now =
      Some (mkKBucket (nodeId kb) (kSize kb) (numberOfBuckets kb)
              (replace_nth (getBucketIndex kb (pi_id peer)) (mkBucket newPeers now) (buckets kb))) /\
    (forall i, find_index (fun p => String.eqb (pi_id p) (pi_id peer)) (peers bucket) = Some i ->
       newPeers = replace_nth i (refreshed peer now) (peers bucket)) /\
    (find_index (fun p => String.eqb (pi_id p) (pi_id peer)) (peers bucket) = None ->
       (length (peers bucket) < kSize kb)%nat ->
       newPeers = peers bucket ++ [refreshed peer now]) /\
    (find_index (fun p => String.eqb (pi_id p) (pi_id peer)) (peers bucket) = None ->
       (kSize kb <= length (peers bucket))%nat ->
       forall s, findStalePeer bucket now = Some s ->
       newPeers = replace_nth s (refreshed peer now) (peers bucket)) /\
    (find_index (fun p => String.eqb (pi_id p) (pi_id peer)) (peers bucket) = None ->
       (kSize kb <= length (peers bucket))%nat ->
       findStalePeer bucket now = None -> newPeers = peers bucket).
Proof.
  intros Hbk. unfold addPeer.
  remember (getBucketIndex kb (pi_id peer)) as b eqn:Hbdef.
  rewrite Hbk. eexists. split; [reflexivity|].
  split; [intros i Hi; rewrite Hi; reflexivity|].
  split; [intros Hn Hlt; rewrite Hn; unfold addPeerToBucket;
          rewrite (proj2 (Nat.ltb_lt _ _) Hlt); reflexivity|].
  split; [intros Hn Hge st Hst; rewrite Hn; unfold addPeerToBucket;
          rewrite (proj2 (Nat.ltb_ge _ _) Hge), Hst; reflexivity|].
  intros Hn Hge Hst; rewrite Hn; unfold addPeerToBucket;
    rewrite (proj2 (Nat.ltb_ge _ _) Hge), Hst; reflexivity.
Qed.

(** C5 (counterexample): nothing keeps the node's own id out of the table:
    adding a peer with the node's id puts it in bucket 255. *)
Lemma routing_table_accepts_self :
  match run_ops empty_table [OpAddPeer (peer_at id_zero 0) 0] with
  | Some kb => option_map (fun b => map pi_id (peers b)) (nth_error (buckets kb) 255)
               = Some [id_zero]
  | None => False
  end.
Proof. vm_compute. reflexivity. Qed.

(** C5 (amended): after any sequence of [addPeer] and [removePeer] from an
    empty table of 256 buckets, every bucket holds at most [k] peers with
    distinct ids, every peer sits in the bucket [getBucketIndex] gives for its
    id, and so no id occurs in two buckets. (The node's own id is not
    excluded.) *)
Theorem routing_table_partition (self : string) (k : nat) (t0 : Z) (ops : list RoutingOp) :
  exists kb,
    run_ops (new_KBucket self k 256 t0) ops = Some kb /\
    length (buckets kb) = 256%nat /\
    (forall b bucket, nth_error (buckets kb) b = Some bucket ->
       (length (peers bucket) <= k)%nat /\ NoDup (map pi_id (peers bucket)) /\
       Forall (fun p => getBucketIndex kb (pi_id p) = b) (peers bucket)) /\
    (forall b1 b2 bucket1 bucket2 p1 p2,
       nth_error (buckets kb) b1 = Some bucket1 -> nth_error (buckets kb) b2 = Some bucket2 ->
       In p1 (peers bucket1) -> In p2 (peers bucket2) -> pi_id p1 = pi_id p2 -> b1 = b2).
Proof.
  destruct (run_ops_inv (new_KBucket self k 256 t0) ops (table_inv_new self k t0))
    as (kb & Hrun & _ & Hlen & Hb).
  assert (Hk : kSize kb = k)
    by (rewrite (run_ops_fields ops _ _ Hrun); reflexivity).
  exists kb. split; [exact Hrun|]. split; [exact Hlen|]. split.
  - intros b bucket Hbk. rewrite <- Hk. exact (Hb b bucket Hbk).
  - intros b1 b2 bucket1 bucket2 p1 p2 H1 H2 Hp1 Hp2 Hid.
    destruct (Hb b1 bucket1 H1) as (_ & _ & F1).
    destruct (Hb b2 bucket2 H2) as (_ & _ & F2).
    rewrite Forall_forall in F1, F2.
    specialize (F1 p1 Hp1). specialize (F2 p2 Hp2).
    rewrite <- F1, <- F2, Hid. reflexivity.
Qed.

(* ------------------------------------------------------------------------ *)
(** ** Message validation claims *)

Definition msg_empty_key : DHTMessage :=
  mkMessage "STORE" (Some "store"%string) (Some "dht"%string) (Some "1"%string)
            (mkPayload "m1" (Some 1000) (Some "peer"%string) (Some EmptyString)).

(** C7 (counterexample): a message whose key is present but empty (so not 64
    hex characters) is accepted, since the empty string is falsy and the key
    check is skipped. *)
Lemma validateMessage_accepts_empty_key :
  pl_key (msg_payload msg_empty_key) = Some EmptyString /\
  key_regex_test EmptyString = false /\
  validateMessage 1000 msg_empty_key = true.
Proof. split; [reflexivity|]. split; reflexivity. Qed.

(** [validateMessage] rejects a message whose [dhtType] or [payload.sender]
    is missing or empty, whose [payload.key] is a non-empty string that is not
    64 lowercase hex characters, or whose timestamp is more than 5 minutes away
    from the current time. *)
Theorem validateMessage_rejects (now : Z) (message : DHTMessage) :
  (truthy (msg_dhtType message) = false -> validateMessage now message = false) /\
  (truthy (pl_sender (msg_payload message)) = false -> validateMessage now message = false) /\
  (forall key, pl_key (msg_payload message) = Some key -> key <> EmptyString ->
     key_regex_test key = false -> validateMessage now message = false) /\
  (forall ts, pl_timestamp (msg_payload message) = Some ts -> Z.abs (now - ts) > MAX_TIME_DIFF ->
     validateMessage now message = false).
Proof.
  unfold validateMessage. split; [|split; [|split]].
  - intros H. rewrite H. reflexivity.
  - intros H. rewrite H, !orb_true_r. reflexivity.
  - intros key Hk Hne Hre. rewrite Hk.
    destruct (_ || _ || _ || _); [reflexivity|].
    unfold truthy. destruct (String.eqb_spec key EmptyString) as [->|_]; [contradiction|].
    rewrite Hre. reflexivity.
  - intros ts Hts Hgt.
    destruct (_ || _ || _ || _); [reflexivity|].
    destruct (truthy _ && _); [reflexivity|].
    rewrite Hts, (proj2 (Z.gtb_lt _ _) (Z.gt_lt _ _ Hgt)). reflexivity.
Qed.

(** C7 (code bug): a message whose [payload.key] is present but empty is
    accepted whenever its other fields pass, although the empty string is not
    64 lowercase hex characters: the guard [message.payload.key && ...] treats
    the empty key as absent and skips the format check. *)
Theorem validateMessage_accepts_present_empty_key (now : Z) (message : DHTMessage) :
  truthy (msg_dhtType message) = true ->
  truthy (pl_sender (msg_payload message)) = true ->
  truthy (msg_protocol message) = true ->
  truthy (msg_version message) = true ->
  pl_key (msg_payload message) = Some EmptyString ->
  match pl_timestamp (msg_payload message) with
  | Some ts => Z.abs (now - ts) <= MAX_TIME_DIFF
  | None => True
  end ->
  key_regex_test EmptyString = false /\ validateMessage now message = true.
Proof.
  intros Hd Hs Hp Hv Hk Ht. split; [reflexivity|].
  unfold validateMessage. rewrite Hd, Hs, Hp, Hv, Hk. cbn [negb orb truthy String.eqb andb].
  destruct (pl_timestamp (msg_payload message)) as [ts|]; [|reflexivity].
  rewrite Z.gtb_ltb. apply Z.le_ge in Ht. rewrite (proj2 (Z.ltb_ge _ _) (Z.ge_le _ _ Ht)).
  reflexivity.
Qed.

(* ------------------------------------------------------------------------ *)
(** ** Concrete storage providers used by the examples below *)

Definition ex_md : StorageMetadata :=
  mkMetadata "d1" 1 [mkChunkInfo 0 1 EmptyString (mkLocation EmptyString "local" 0) 0].

(** A provider that stores and serves [ex_md] and checks out. *)
Definition ok_provider : StorageProvider nat :=
  mkProvider nat "local" (fun _ _ st => (Ok ex_md, S st)) (fun _ st => (Ok [7], st))
             (fun _ st => (Ok true, st)) (fun _ st => (Ok (Some ex_md), st)).

(** A provider whose every operation fails. *)
Definition failing_provider : StorageProvider nat :=
  mkProvider nat "network" (fun _ _ st => (Err (PlainError "down"), st))
             (fun _ st => (Err (PlainError "down"), st))
             (fun _ st => (Err (PlainError "down"), st))
             (fun _ st => (Err (PlainError "down"), st)).


Definition ex_providers : list (string * StorageProvider nat) :=
  [("local"%string, ok_provider); ("network"%string, failing_provider)].

Definition ex_config : StorageManagerConfig := mkConfig None (Some 2).

Definition ex_state : MState nat := mkMState nat (fun _ => 0%nat) [] [].

Definition ex_request : StorageRequest := mkRequest [7] None (Some Hybrid).

Definition ex_request_no_replicas : StorageRequest :=
  mkRequest [7] (Some (mkOptions (Some 0))) (Some Hybrid).

(* ------------------------------------------------------------------------ *)
(** ** Storage manager examples *)


(** An instance of C8: the secondary's store fails, [replication-failed] is
    emitted, and [store] still returns the primary's metadata. *)
Lemma store_hybrid_primary_result_witness :
  resolve_strategy ex_config ex_request = Hybrid /\
  nth_error ex_providers 0 = Some ("local"%string, ok_provider) /\
  prov_store nat ok_provider (req_data ex_request) (req_options ex_request)
    (ms_pstate nat ex_state 0) = (Ok ex_md, 1%nat) /\
  ms_events nat (snd (store nat ex_providers ex_config ex_request ex_state)) =
    [EvRetrieved "d1" 1 0; EvReplicationFailed "d1" 1 (PlainError "down");
     EvStored "d1" 1 2 Hybrid] /\
  fst (store nat ex_providers ex_config ex_request ex_state) = Ok ex_md.
Proof.
  split; [reflexivity|]. split; [reflexivity|]. split; [reflexivity|].
  split; [vm_compute; reflexivity|].
  exact (proj1 (store_hybrid_primary_result nat ex_providers ex_config ex_request ex_state
                  "local"%string ok_provider ex_md 1%nat eq_refl eq_refl eq_refl)).
Defined.

(** An instance of C10: [replicas = 0] with two providers under [hybrid]. *)
Lemma store_zero_replicas_only_primary_witness :
  getProvidersForStrategy nat ex_providers (resolve_strategy ex_config ex_request_no_replicas)
    = [0%nat; 1%nat] /\
  option_replicas (req_options ex_request_no_replicas) = Some 0 /\
  ((forall j, j <> 0%nat ->
      ms_pstate nat (snd (store nat ex_providers ex_config ex_request_no_replicas ex_state)) j
      = ms_pstate nat ex_state j) /\
   exists new,
     ms_events nat (snd (store nat ex_providers ex_config ex_request_no_replicas ex_state))
       = ms_events nat ex_state ++ new /\
     Forall (fun e => is_replication_event e = false) new).
Proof.
  split; [reflexivity|]. split; [reflexivity|].
  exact (store_zero_replicas_only_primary nat ex_providers ex_config ex_request_no_replicas
           ex_state 0%nat [1%nat] eq_refl eq_refl).
Defined.

(* ------------------------------------------------------------------------ *)
(** ** Instances of the chunking and routing theorems *)

Definition no_hash (_ : Buffer) : string := EmptyString.

Lemma split_chunk_layout_witness :
  (0 < 2)%nat /\
  exists infos,
    split no_hash [1; 2; 3] 2 0 = Some infos /\
    length infos = chunk_count (length [1; 2; 3]) 2 /\
    (forall i ci, nth_error infos i = Some ci ->
       ci_index ci = Z.of_nat i /\
       ci_size ci = Z.of_nat (Nat.min ((i + 1) * 2) (length [1; 2; 3]) - i * 2) /\
       ci_checksum ci = no_hash (slice [1; 2; 3] (i * 2) (Nat.min ((i + 1) * 2) (length [1; 2; 3]))) /\
       ci_size ci <= Z.of_nat 2) /\
    (length [1; 2; 3] = 0%nat -> infos = []).
Proof.
  split; [lia|]. apply (split_chunk_layout no_hash [1; 2; 3] 2 0). lia.
Defined.

Definition ex_chunk_info : ChunkInfo :=
  mkChunkInfo 0 2 EmptyString (mkLocation EmptyString "local" 0) 0.

Lemma combine_validation_and_concat_witness :
  length [[1; 2]] = length [ex_chunk_info] /\
  ((exists ci d, In (ci, d) (List.combine [ex_chunk_info] [[1; 2]]) /\
      (Z.of_nat (length d) <> ci_size ci \/ no_hash d <> ci_checksum ci)) ->
   exists idx, combine no_hash [[1; 2]] [ex_chunk_info]
               = Err (StorageError CHUNK_VALIDATION_ERROR (Some idx) NoDetails)) /\
  ((forall ci d, In (ci, d) (List.combine [ex_chunk_info] [[1; 2]]) ->
      Z.of_nat (length d) = ci_size ci /\ no_hash d = ci_checksum ci) ->
   exists sorted out,
     Permutation sorted (List.combine [ex_chunk_info] [[1; 2]]) /\
     Sorted index_le sorted /\
     out = concat (map snd sorted) /\
     combine no_hash [[1; 2]] [ex_chunk_info] = Ok out /\
     Z.of_nat (length out) = fold_right Z.add 0%Z (map ci_size [ex_chunk_info])).
Proof.
  split; [reflexivity|].
  apply (combine_validation_and_concat no_hash [[1; 2]] [ex_chunk_info]). reflexivity.
Defined.

Lemma combine_split_roundtrip_witness :
  (1 <= 2)%nat /\ (2 <= length [1; 2; 3])%nat /\
  exists infos,
    split no_hash [1; 2; 3] 2 0 = Some infos /\
    combine no_hash (chunk_buffers [1; 2; 3] 2 infos) infos = Ok [1; 2; 3].
Proof.
  split; [lia|]. split; [cbn; lia|].
  apply (combine_split_roundtrip no_hash [1; 2; 3] 2 0); [lia|cbn; lia].
Defined.

Lemma addPeer_bucket_update_witness :
  nth_error (buckets empty_table) (getBucketIndex empty_table (pi_id (peer_at id_one 0)))
    = Some (mkBucket [] 0) /\
  exists newPeers,
    addPeer empty_table (peer_at id_one 0) 5 =
      Some (mkKBucket (nodeId empty_table) (kSize empty_table) (numberOfBuckets empty_table)
              (replace_nth (getBucketIndex empty_table (pi_id (peer_at id_one 0)))
                 (mkBucket newPeers 5) (buckets empty_table))) /\
    (forall i, find_index (fun p => String.eqb (pi_id p) (pi_id (peer_at id_one 0)))
                 (peers (mkBucket [] 0)) = Some i ->
       newPeers = replace_nth i (refreshed (peer_at id_one 0) 5) (peers (mkBucket [] 0))) /\
    (find_index (fun p => String.eqb (pi_id p) (pi_id (peer_at id_one 0))) (peers (mkBucket [] 0)) = None ->
       (length (peers (mkBucket [] 0)) < kSize empty_table)%nat ->
       newPeers = peers (mkBucket [] 0) ++ [refreshed (peer_at id_one 0) 5]) /\
    (find_index (fun p => String.eqb (pi_id p) (pi_id (peer_at id_one 0))) (peers (mkBucket [] 0)) = None ->
       (kSize empty_table <= length (peers (mkBucket [] 0)))%nat ->
       forall s, findStalePeer (mkBucket [] 0) 5 = Some s ->
       newPeers = replace_nth s (refreshed (peer_at id_one 0) 5) (peers (mkBucket [] 0))) /\
    (find_index (fun p => String.eqb (pi_id p) (pi_id (peer_at id_one 0))) (peers (mkBucket [] 0)) = None ->
       (kSize empty_table <= length (peers (mkBucket [] 0)))%nat ->
       findStalePeer (mkBucket [] 0) 5 = None -> newPeers = peers (mkBucket [] 0)).
Proof.
  assert (H : nth_error (buckets empty_table) (getBucketIndex empty_table (pi_id (peer_at id_one 0)))
              = Some (mkBucket [] 0)) by (vm_compute; reflexivity).
  split; [exact H|].
  exact (addPeer_bucket_update empty_table (peer_at id_one 0) 5 (mkBucket [] 0) H).
Defined.

(* ------------------------------------------------------------------------ *)
(** * Further DHT protocol functions (DHTProtocol, src/dht/protocol.ts) *)

Inductive DHTMessageType := FIND_NODE | FIND_VALUE | STORE | DELETE | PING.

Definition dht_type_name (t : DHTMessageType) : string :=
  match t with
  | FIND_NODE => "FIND_NODE"
  | FIND_VALUE => "FIND_VALUE"
  | STORE => "STORE"
  | DELETE => "DELETE"
  | PING => "PING"
  end.

(** [mapDHTTypeToMessageType(dhtType)]. *)
Definition mapDHTTypeToMessageType (dhtType : DHTMessageType) : string :=
  match dhtType with
  | FIND_NODE | FIND_VALUE => "query"
  | STORE | DELETE => "update"
  | PING => "query"
  end.

(** Decimal digits of a non-negative integer, most significant first. *)
Fixpoint decimal_digits (fuel : nat) (n : Z) (acc : string) : string :=
  match fuel with
  | O => acc
  | S fuel' =>
      let acc' := String (ascii_of_nat (48 + Z.to_nat (n mod 10))) acc in
      if n <? 10 then acc' else decimal_digits fuel' (n / 10) acc'
  end.

(** [n.toString()] for an integer [n]. *)
Definition number_to_string (n : Z) : string :=
  if n <? 0 then String "-" (decimal_digits (S (Z.to_nat (Z.log2 (- n)))) (- n) EmptyString)
  else decimal_digits (S (Z.to_nat (Z.log2 n))) n EmptyString.

(** [createMessage(dhtType, sender, {key, value, receiver})]; the two calls
    of [Date.now()] return [idTime] (hashed into the id) and [now] (the
    timestamp); [generateKey] is the SHA-256 hex digest of its argument. The payload
    fields [receiver], [value] and [data] are not read by [validateMessage]
    and are not represented in [DHTPayload]. *)
Definition createMessage (generateKey : string -> string) (dhtType : DHTMessageType)
    (sender : string) (key : option string) (idTime now : Z) : DHTMessage :=
  mkMessage (mapDHTTypeToMessageType dhtType) (Some (dht_type_name dhtType))
    (Some "dht"%string) (Some "1.0.0"%string)
    (mkPayload (generateKey (number_to_string idTime)) (Some now) (Some sender) key).

(** [Buffer.compare(a, b)] ([a.compare(b)]): byte-wise, then by length. *)
Fixpoint buffer_compare (a b : Buffer) : Z :=
  match a, b with
  | [], [] => 0
  | [], _ :: _ => -1
  | _ :: _, [] => 1
  | x :: a', y :: b' =>
      if x <? y then -1 else if y <? x then 1 else buffer_compare a' b'
  end.

(** [isCloser(keyA, keyB, target)]. *)
Definition isCloser (keyA keyB target : string) : bool :=
  buffer_compare (distance keyA target) (distance keyB target) <? 0.

(** [Array.prototype.sort(cmp)] on a copy: the sort is stable, so for a
    consistent comparator its result is the one of insertion sort that puts
    each element after the elements already placed that do not compare
    greater. *)
Fixpoint insert_by {A} (cmp : A -> A -> Z) (p : A) (l : list A) : list A :=
  match l with
  | [] => [p]
  | q :: r => if cmp p q <? 0 then p :: q :: r else q :: insert_by cmp p r
  end.

Definition sort_by {A} (cmp : A -> A -> Z) (l : list A) : list A :=
  fold_left (fun acc p => insert_by cmp p acc) l [].

(** [sortByDistance(peers, targetKey)]. *)
Definition sortByDistance (peers : list PeerInfo) (targetKey : string) : list PeerInfo :=
  sort_by (fun a b => buffer_compare (distance (pi_id a) targetKey)
                                     (distance (pi_id b) targetKey)) peers.

(* ------------------------------------------------------------------------ *)
(** * Further routing-table methods (KBucket, src/storage/p2p.ts) *)

(** [getPeer(peerId)]: [None] when [this.buckets[bucketIndex]] is
    [undefined] (the call throws), [Some None] for [null]. *)
Definition getPeer (kb : KBucket) (peerId : string) : option (option PeerInfo) :=
  match nth_error (buckets kb) (getBucketIndex kb peerId) with
  | None => None
  | Some bucket => Some (find (fun p => String.eqb (pi_id p) peerId) (peers bucket))
  end.

(** [getAllPeers()]. *)
Definition getAllPeers (kb : KBucket) : list PeerInfo :=
  fold_left (fun acc bucket => acc ++ peers bucket) (buckets kb) [].

(** [getClosestPeers(key, count = this.kSize)]. *)
Definition getClosestPeers (kb : KBucket) (key : string) (count : option Z) : list PeerInfo :=
  let count := match count with Some c => c | None => Z.of_nat (kSize kb) end in
  js_slice_prefix (sortByDistance (getAllPeers kb) key) count.

(** [size()]. *)
Definition size (kb : KBucket) : nat :=
  fold_left (fun total bucket => (total + length (peers bucket))%nat) (buckets kb) 0%nat.

Record BucketStats := mkBucketStats {
  bucketSize : list nat;
  totalPeers : nat
}.

(** [getBucketStats()]. *)
Definition getBucketStats (kb : KBucket) : BucketStats :=
  let bucketSize := map (fun bucket => length (peers bucket)) (buckets kb) in
  mkBucketStats bucketSize (fold_left (fun sum size => (sum + size)%nat) bucketSize 0%nat).

(* ------------------------------------------------------------------------ *)
(** ** Properties of the XOR metric, the comparator and the sort *)

Lemma buffer_compare_be (a b : Buffer) :
  byte_range a -> byte_range b -> length a = length b ->
  buffer_compare a b = match Z.compare (be_value a) (be_value b) with
                       | Lt => -1 | Eq => 0 | Gt => 1 end.
Proof.
  intros Ha. revert b. induction Ha as [|x a Hx Ha IH]; intros b Hb Hlen.
  - destruct b; [reflexivity|discriminate].
  - destruct Hb as [|y b Hy Hb]; [discriminate|].
    injection Hlen as Hlen.
    cbn [buffer_compare]. rewrite !be_value_cons, <- Hlen.
    pose proof (be_value_range a Ha) as Hra.
    pose proof (be_value_range b Hb) as Hrb. rewrite <- Hlen in Hrb.
    set (P := 256 ^ Z.of_nat (length a)) in *.
    destruct (Z.ltb_spec x y).
    + assert (x * P + be_value a < y * P + be_value b) by nia.
      destruct (Z.compare_spec (x * P + be_value a) (y * P + be_value b)); lia.
    + destruct (Z.ltb_spec y x).
      * assert (y * P + be_value b < x * P + be_value a) by nia.
        destruct (Z.compare_spec (x * P + be_value a) (y * P + be_value b)); lia.
      * assert (x = y) as -> by lia. rewrite (IH b Hb Hlen).
        destruct (Z.compare_spec (be_value a) (be_value b));
          destruct (Z.compare_spec (y * P + be_value a) (y * P + be_value b)); lia.
Qed.

Lemma buffer_compare_distance (a b t u : string) :
  buffer_compare (distance a t) (distance b u) =
  match Z.compare (be_value (distance a t)) (be_value (distance b u)) with
  | Lt => -1 | Eq => 0 | Gt => 1 end.
Proof.
  destruct (distance_bytes a t) as [Ha La]. destruct (distance_bytes b u) as [Hb Lb].
  apply buffer_compare_be; [exact Ha|exact Hb|congruence].
Qed.

Section SortBy.

Context {A : Type} (cmp : A -> A -> Z) (f : A -> Z).
Hypothesis Hcmp : forall a b, (cmp a b <? 0) = (f a <? f b).

Lemma insert_by_perm (p : A) (l : list A) : Permutation (p :: l) (insert_by cmp p l).
Proof.
  induction l as [|q r IH]; simpl; [reflexivity|].
  destruct (cmp p q <? 0); [reflexivity|].
  etransitivity; [apply perm_swap|]. now apply perm_skip.
Qed.

Lemma sort_by_perm (l : list A) : Permutation l (sort_by cmp l).
Proof.
  unfold sort_by.
  enough (G : forall acc, Permutation (acc ++ l)
                (fold_left (fun acc p => insert_by cmp p acc) l acc))
    by exact (G []).
  induction l as [|x l IH]; intros acc; simpl; [now rewrite app_nil_r|].
  rewrite <- IH.
  rewrite <- (insert_by_perm x acc). apply Permutation_sym, Permutation_middle.
Qed.

Lemma insert_by_sorted (p : A) (l : list A) :
  Sorted (fun a b => f a <= f b) l -> Sorted (fun a b => f a <= f b) (insert_by cmp p l).
Proof.
  induction 1 as [|q r Hr IH Hhd]; simpl; [repeat constructor|].
  rewrite Hcmp. destruct (Z.ltb_spec (f p) (f q)).
  - constructor; [constructor; assumption|constructor; lia].
  - constructor; [exact IH|].
    destruct r as [|q' r']; simpl; [constructor; lia|].
    inversion Hhd; subst.
    rewrite Hcmp. destruct (f p <? f q'); constructor; lia.
Qed.

Lemma sort_by_sorted (l : list A) : Sorted (fun a b => f a <= f b) (sort_by cmp l).
Proof.
  unfold sort_by.
  enough (G : forall acc, Sorted (fun a b => f a <= f b) acc ->
              Sorted (fun a b => f a <= f b)
                (fold_left (fun acc p => insert_by cmp p acc) l acc))
    by (apply G; constructor).
  induction l as [|x l IH]; intros acc Hacc; simpl; [exact Hacc|].
  apply IH, insert_by_sorted, Hacc.
Qed.

End SortBy.

Lemma sortByDistance_cmp (t : string) (a b : PeerInfo) :
  (buffer_compare (distance (pi_id a) t) (distance (pi_id b) t) <? 0) =
  (be_value (distance (pi_id a) t) <? be_value (distance (pi_id b) t)).
Proof.
  rewrite buffer_compare_distance.
  destruct (Z.compare_spec (be_value (distance (pi_id a) t)) (be_value (distance (pi_id b) t)));
    symmetry; apply Z.ltb_lt || apply Z.ltb_ge; lia.
Qed.

Lemma sorted_prefix_le {A} (f : A -> Z) (l : list A) (n : nat) :
  Sorted (fun a b => f a <= f b) l ->
  forall p q, In p (firstn n l) -> In q (skipn n l) -> f p <= f q.
Proof.
  intros Hs. apply Sorted_StronglySorted in Hs; [|intros x y z; lia].
  revert n. induction Hs as [|x l Hs IH Hx]; intros [|n] p q Hp Hq; simpl in *;
    try contradiction.
  assert (Hin : In q l) by (rewrite <- (firstn_skipn n l); apply in_or_app; now right).
  destruct Hp as [<-|Hp].
  - rewrite Forall_forall in Hx. apply Hx, Hin.
  - eapply IH; [exact Hp|exact Hq].
Qed.

Lemma distance_nth_map (a b : string) :
  distance a b = map (fun i => Z.land (Z.lxor (nth i (hex_decode a) 0) (nth i (hex_decode b) 0)) 255)
                     (seq 0 KEY_SIZE).
Proof. reflexivity. Qed.

Lemma size_acc (l : list Bucket) (n : nat) :
  fold_left (fun total bucket => (total + length (peers bucket))%nat) l n =
  (n + length (fold_left (fun acc bucket => acc ++ peers bucket) l []))%nat.
Proof.
  assert (G : forall acc n, fold_left (fun total bucket => (total + length (peers bucket))%nat) l n =
                (n + length (fold_left (fun acc bucket => acc ++ peers bucket) l acc) - length acc)%nat
              /\ (length acc <= length (fold_left (fun acc bucket => acc ++ peers bucket) l acc))%nat).
  { induction l as [|x l IH]; intros acc m; simpl; [lia|].
    destruct (IH (acc ++ peers x) (m + length (peers x))%nat) as [E L].
    rewrite length_app in L. rewrite E, length_app. lia. }
  destruct (G [] n) as [E _]. rewrite E. simpl. lia.
Qed.

Lemma fold_add_acc (l : list nat) (n : nat) :
  fold_left (fun sum size => (sum + size)%nat) l n = (n + fold_left (fun sum size => (sum + size)%nat) l 0)%nat.
Proof.
  revert n. induction l as [|x l IH]; intros n; simpl; [lia|].
  rewrite IH, (IH x). lia.
Qed.

Lemma size_capacity_acc (l : list Bucket) (k : nat) (n : nat) :
  Forall (fun bucket => (length (peers bucket) <= k)%nat) l ->
  (fold_left (fun total bucket => (total + length (peers bucket))%nat) l n <= n + length l * k)%nat.
Proof.
  intros H. revert n. induction H as [|x l Hx Hl IH]; intros n; simpl; [lia|].
  specialize (IH (n + length (peers x))%nat). lia.
Qed.

Lemma find_app_absent {A} (f : A -> bool) (pre post : list A) :
  Forall (fun x => f x = false) pre -> find f (pre ++ post) = find f post.
Proof. induction 1 as [|x l Hx _ IH]; simpl; [reflexivity|]. now rewrite Hx. Qed.

Lemma find_absent {A} (f : A -> bool) (l : list A) :
  Forall (fun x => f x = false) l -> find f l = None.
Proof. intros H. rewrite <- (app_nil_r l). rewrite find_app_absent by exact H. reflexivity. Qed.

Lemma find_NoDup_absent (l : list PeerInfo) (i : nat) (id : string) :
  NoDup (map pi_id l) ->
  find_index (fun p => String.eqb (pi_id p) id) l = Some i ->
  find (fun p => String.eqb (pi_id p) id) (remove_nth i l) = None.
Proof.
  intros Hnd Hi. apply find_index_some in Hi as (pre & q & post & -> & <- & Hq & Hpre).
  apply String.eqb_eq in Hq.
  assert (Hrm : remove_nth (length pre) (pre ++ q :: post) = pre ++ post).
  { clear. induction pre as [|x pre IH]; simpl; congruence. }
  rewrite Hrm, find_app_absent by exact Hpre.
  apply find_absent. rewrite Forall_forall. intros x Hx.
  apply String.eqb_neq. intros Hxid.
  rewrite map_app in Hnd. cbn [map] in Hnd. apply NoDup_remove_2 in Hnd.
  apply Hnd. apply in_or_app. right. rewrite Hq, <- Hxid. apply in_map, Hx.
Qed.

Lemma run_ops_reachable_inv (self : string) (k : nat) (t0 : Z) (ops : list RoutingOp) (kb : KBucket) :
  run_ops (new_KBucket self k 256 t0) ops = Some kb -> table_inv kb /\ kSize kb = k.
Proof.
  intros Hrun.
  destruct (run_ops_inv (new_KBucket self k 256 t0) ops (table_inv_new self k t0))
    as (kb' & Hrun' & Hinv).
  rewrite Hrun in Hrun'. injection Hrun' as <-.
  split; [exact Hinv|]. rewrite (run_ops_fields ops _ _ Hrun). reflexivity.
Qed.

(* ------------------------------------------------------------------------ *)
(** ** Extra properties of the DHT protocol and of the routing table *)

(** XOR distance is symmetric, and the distance of a key to itself is 32 zero
    bytes. *)
Theorem distance_symmetric_self_zero (a b : string) :
  distance a b = distance b a /\ distance a a = repeat 0 KEY_SIZE.
Proof.
  split.
  - rewrite !distance_nth_map. apply map_ext. intros i. rewrite Z.lxor_comm. reflexivity.
  - rewrite distance_nth_map.
    transitivity (map (fun _ : nat => 0) (seq 0 KEY_SIZE)); [|reflexivity].
    apply map_ext. intros i. rewrite Z.lxor_nilpotent. reflexivity.
Qed.

(** Byte-wise XOR of [distance a b] and [distance b c] is [distance a c]. *)
Theorem distance_xor_compose (a b c : string) :
  map (fun xy => Z.lxor (fst xy) (snd xy)) (List.combine (distance a b) (distance b c))
  = distance a c.
Proof.
  rewrite !distance_nth_map, combine_map_seq, map_map. apply map_ext. intros i. cbn [fst snd].
  apply Z.bits_inj'. intros n _.
  rewrite Z.lxor_spec, !Z.land_spec, !Z.lxor_spec.
  destruct (Z.testbit (nth i (hex_decode a) 0) n), (Z.testbit (nth i (hex_decode b) 0) n),
    (Z.testbit (nth i (hex_decode c) 0) n), (Z.testbit 255 n); reflexivity.
Qed.

(** [isCloser(a, b, target)] holds exactly when the distance of [a] to the
    target, read as a 256-bit big-endian number, is smaller than that of [b]. *)
Theorem isCloser_iff_smaller_distance (a b target : string) :
  isCloser a b target = (be_value (distance a target) <? be_value (distance b target)).
Proof.
  unfold isCloser. rewrite buffer_compare_distance.
  destruct (Z.compare_spec (be_value (distance a target)) (be_value (distance b target)));
    symmetry; apply Z.ltb_lt || apply Z.ltb_ge; lia.
Qed.

(** [sortByDistance(peers, target)] returns the same peers, ordered by
    non-decreasing distance to the target. *)
Theorem sortByDistance_perm_sorted (ps : list PeerInfo) (target : string) :
  Permutation ps (sortByDistance ps target) /\
  Sorted (fun p q => be_value (distance (pi_id p) target) <= be_value (distance (pi_id q) target))
         (sortByDistance ps target).
Proof.
  unfold sortByDistance. split; [apply sort_by_perm|].
  apply (sort_by_sorted _ (fun p => be_value (distance (pi_id p) target))).
  intros p q. apply sortByDistance_cmp.
Qed.

(** For [count >= 0], [getClosestPeers(key, count)] returns
    [min(count, size())] peers of the table, and no peer of the table left
    out is closer to [key] than a peer returned. *)
Theorem getClosestPeers_closest (kb : KBucket) (key : string) (count : Z) :
  0 <= count ->
  length (getClosestPeers kb key (Some count)) = Nat.min (Z.to_nat count) (size kb) /\
  exists rest,
    Permutation (getClosestPeers kb key (Some count) ++ rest) (getAllPeers kb) /\
    forall p q, In p (getClosestPeers kb key (Some count)) -> In q rest ->
      be_value (distance (pi_id p) key) <= be_value (distance (pi_id q) key).
Proof.
  intros Hc. unfold getClosestPeers, js_slice_prefix.
  destruct (Z.ltb_spec count 0) as [H|_]; [lia|].
  destruct (sortByDistance_perm_sorted (getAllPeers kb) key) as [Hp Hs].
  split.
  - rewrite length_firstn, <- (Permutation_length Hp).
    unfold size, getAllPeers. rewrite size_acc. reflexivity.
  - exists (skipn (Z.to_nat count) (sortByDistance (getAllPeers kb) key)).
    split; [rewrite firstn_skipn; symmetry; exact Hp|].
    apply sorted_prefix_le, Hs.
Qed.

(** [validateMessage] at time [t] of a message made by [createMessage] with
    timestamp [t0] is true exactly when the sender is non-empty, the key is absent,
    empty or 64 lowercase hex characters, and [|t - t0|] is at most 5
    minutes. *)
Theorem createMessage_validate (generateKey : string -> string) (dhtType : DHTMessageType)
    (sender : string) (key : option string) (t1 t0 t : Z) :
  validateMessage t (createMessage generateKey dhtType sender key t1 t0) =
  negb (String.eqb sender EmptyString) &&
  match key with Some k => String.eqb k EmptyString || key_regex_test k | None => true end &&
  (Z.abs (t - t0) <=? MAX_TIME_DIFF).
Proof.
  unfold validateMessage, createMessage, truthy.
  cbn [msg_dhtType msg_payload msg_protocol msg_version pl_sender pl_key pl_timestamp].
  rewrite Z.gtb_ltb, Z.leb_antisym.
  assert (Hty : String.eqb (dht_type_name dhtType) EmptyString = false)
    by (destruct dhtType; reflexivity).
  rewrite Hty.
  destruct (String.eqb sender EmptyString); destruct key as [k|];
    try destruct (String.eqb k EmptyString); try destruct (key_regex_test k);
    reflexivity.
Qed.

(** [getPeer(peer.id)] right after [addPeer(peer)] returns the refreshed
    peer when the peer was already in its bucket, the bucket had room, or the
    bucket holds a stale peer; otherwise it returns [null]. *)
Theorem getPeer_after_addPeer (kb : KBucket) (peer : PeerInfo) (now : Z) (bucket : Bucket) :
  nth_error (buckets kb) (getBucketIndex kb (pi_id peer)) = Some bucket ->
  exists kb',
    addPeer kb peer now = Some kb' /\
    getPeer kb' (pi_id peer) =
      if existsb (fun p => String.eqb (pi_id p) (pi_id peer)) (peers bucket)
         || Nat.ltb (length (peers bucket)) (kSize kb)
         || match findStalePeer bucket now with Some _ => true | None => false end
      then Some (Some (refreshed peer now)) else Some None.
Proof.
  intros Hbk. unfold addPeer.
  remember (getBucketIndex kb (pi_id peer)) as b eqn:Hbdef.
  rewrite Hbk. eexists. split; [reflexivity|].
  unfold getPeer.
  rewrite (getBucketIndex_same kb (mkKBucket (nodeId kb) (kSize kb) (numberOfBuckets kb) _)
             eq_refl eq_refl (pi_id peer)).
  rewrite <- Hbdef. cbn [buckets].
  assert (Hlt : (b < length (buckets kb))%nat)
    by (apply nth_error_Some; rewrite Hbk; discriminate).
  rewrite nth_error_replace_nth_eq by exact Hlt. cbn [peers].
  set (f := fun p => String.eqb (pi_id p) (pi_id peer)).
  assert (Hself : f (refreshed peer now) = true) by (apply String.eqb_refl).
  destruct (find_index f (peers bucket)) as [i|] eqn:E.
  - apply find_index_some in E as (pre & q & post & Hl & Hlen & Hq & Hpre).
    rewrite Hl, <- Hlen, replace_nth_app, find_app_absent by exact Hpre.
    cbn [find]. rewrite Hself.
    rewrite existsb_app. cbn [existsb]. rewrite Hq, orb_true_r. reflexivity.
  - apply find_index_none in E as Hnone.
    assert (Hex : existsb f (peers bucket) = false).
    { apply not_true_is_false. rewrite existsb_exists. intros (x & Hx & Hfx).
      rewrite Forall_forall in Hnone. rewrite (Hnone x Hx) in Hfx. discriminate. }
    rewrite Hex. cbn [orb]. unfold addPeerToBucket.
    destruct (Nat.ltb (length (peers bucket)) (kSize kb)).
    + rewrite find_app_absent by exact Hnone. cbn [find]. rewrite Hself. reflexivity.
    + destruct (findStalePeer bucket now) as [s|] eqn:Hs.
      * destruct (Nat.lt_ge_cases s (length (peers bucket))) as [Hslt|Hsge].
        -- destruct (nth_error (peers bucket) s) as [q|] eqn:Hq;
             [|apply nth_error_None in Hq; lia].
           destruct (nth_error_split _ _ Hq) as (pre & post & Hl & Hlen).
           rewrite Hl, <- Hlen, replace_nth_app.
           rewrite Hl in Hnone. apply Forall_app in Hnone as [Hpre _].
           rewrite find_app_absent by exact Hpre. cbn [find]. rewrite Hself. reflexivity.
        -- unfold findStalePeer in Hs.
           destruct (find_index_some_nth _ _ _ Hs) as (q & Hq & _).
           apply nth_error_None in Hsge. congruence.
      * rewrite find_absent by exact Hnone. reflexivity.
Qed.

(** In a table built by the constructor (256 buckets) and any sequence of
    [addPeer] and [removePeer] calls, [getPeer(id)] returns [null] right after
    [removePeer(id)]. *)
Theorem getPeer_after_removePeer (self : string) (k : nat) (t0 : Z) (ops : list RoutingOp)
    (kb kb' : KBucket) (id : string) (now : Z) :
  run_ops (new_KBucket self k 256 t0) ops = Some kb ->
  removePeer kb id now = Some kb' ->
  getPeer kb' id = Some None.
Proof.
  intros Hrun.
  destruct (run_ops_reachable_inv self k t0 ops kb Hrun) as [Hinv _].
  pose proof Hinv as (Hnb & Hlen & Hb).
  unfold removePeer.
  remember (getBucketIndex kb id) as b eqn:Hbdef.
  destruct (nth_error (buckets kb) b) as [bucket|] eqn:Hbk; [|discriminate].
  destruct (find_index (fun p => String.eqb (pi_id p) id) (peers bucket)) as [i|] eqn:E;
    intros Hrm; injection Hrm as Hkb; subst kb'; unfold getPeer.
  - rewrite (getBucketIndex_same kb (mkKBucket (nodeId kb) (kSize kb) (numberOfBuckets kb) _)
               eq_refl eq_refl id).
    rewrite <- Hbdef. cbn [buckets].
    assert (Hlt : (b < length (buckets kb))%nat)
      by (apply nth_error_Some; rewrite Hbk; discriminate).
    rewrite nth_error_replace_nth_eq by exact Hlt. cbn [peers].
    destruct (Hb b bucket Hbk) as (_ & Hnd & _).
    rewrite (find_NoDup_absent (peers bucket) i id Hnd E). reflexivity.
  - rewrite <- Hbdef, Hbk.
    apply find_index_none in E. rewrite (find_absent _ _ E). reflexivity.
Qed.

(** For a table built by the constructor with bucket size [k] and any
    sequence of [addPeer] and [removePeer] calls, [getBucketStats().totalPeers],
    [size()] and the number of peers [getAllPeers()] returns agree, and are at
    most [256 * k]. *)
Theorem size_stats_capacity (self : string) (k : nat) (t0 : Z) (ops : list RoutingOp) (kb : KBucket) :
  run_ops (new_KBucket self k 256 t0) ops = Some kb ->
  totalPeers (getBucketStats kb) = size kb /\
  length (getAllPeers kb) = size kb /\
  (size kb <= 256 * k)%nat.
Proof.
  intros Hrun.
  destruct (run_ops_reachable_inv self k t0 ops kb Hrun) as [(Hnb & Hlen & Hb) Hk].
  unfold getBucketStats, size, getAllPeers. cbn [totalPeers].
  split; [|split].
  - clear. generalize 0%nat. induction (buckets kb) as [|x l IH]; intros n; simpl; [reflexivity|].
    apply IH.
  - rewrite size_acc. reflexivity.
  - rewrite <- Hlen, <- Hk. replace (length (buckets kb) * kSize kb)%nat
      with (0 + length (buckets kb) * kSize kb)%nat by lia.
    apply size_capacity_acc. apply Forall_forall. intros x Hx.
    destruct (In_nth_error _ _ Hx) as (j & Hj).
    destruct (Hb j x Hj) as (Hkx & _). exact Hkx.
Qed.

(* ------------------------------------------------------------------------ *)
(** * Further storage-manager methods (StorageManager, src/storage/manager.ts) *)

(** [getMetadata(id)]. *)
Definition getMetadata (PS : Type) (providers : list (string * StorageProvider PS)) (id : string)
    : M PS (option StorageMetadata) :=
  bind PS (cache_get PS id) (fun cached =>
  match cached with
  | Some m => ret PS (Some m)
  | None =>
      bind PS (findMetadata PS providers id) (fun metadata =>
      match metadata with
      | Some m => bind PS (cache_set PS id m) (fun _ => ret PS (Some m))
      | None => ret PS None
      end)
  end).

(** The providers named by the [replicated] and [replication-failed] events
    of a sequence of events, in order. *)
Definition replication_targets (evs : list Event) : list nat :=
  flat_map (fun e => match e with
                     | EvReplicated _ i | EvReplicationFailed _ i _ => [i]
                     | _ => []
                     end) evs.

Section StorageManagerFrames.

Variable PS : Type.
Variable providers : list (string * StorageProvider PS).
Variable config : StorageManagerConfig.

(** A computation that only appends events, none of them about replication. *)
Definition no_repl {A} (m : M PS A) : Prop :=
  forall s, exists evs, ms_events PS (snd (m s)) = ms_events PS s ++ evs /\
                        Forall (fun e => is_replication_event e = false) evs.

(** A computation that leaves the metadata cache as it is. *)
Definition keeps_cache {A} (m : M PS A) : Prop :=
  forall s, ms_cache PS (snd (m s)) = ms_cache PS s.

Lemma no_repl_ret {A} (a : A) : no_repl (ret PS a).
Proof. intros s. exists []. split; [now rewrite app_nil_r|constructor]. Qed.

Lemma no_repl_throw {A} (e : Error) : no_repl (A := A) (throw PS e).
Proof. intros s. exists []. split; [now rewrite app_nil_r|constructor]. Qed.

Lemma no_repl_bind {A B} (m : M PS A) (k : A -> M PS B) :
  no_repl m -> (forall a, no_repl (k a)) -> no_repl (bind PS m k).
Proof.
  intros Hm Hk s. unfold bind. specialize (Hm s).
  destruct (m s) as [[a|e] s1]; cbn [snd] in Hm |- *; destruct Hm as (evs & Hev & Hf).
  - destruct (Hk a s1) as (evs2 & Hev2 & Hf2). exists (evs ++ evs2).
    rewrite Hev2, Hev, app_assoc. split; [reflexivity|apply Forall_app; split; assumption].
  - exists evs. split; assumption.
Qed.

Lemma no_repl_catch {A} (m : M PS A) (h : Error -> M PS A) :
  no_repl m -> (forall e, no_repl (h e)) -> no_repl (catch PS m h).
Proof.
  intros Hm Hh s. unfold catch. specialize (Hm s).
  destruct (m s) as [[a|e] s1]; cbn [snd] in Hm |- *; destruct Hm as (evs & Hev & Hf).
  - exists evs. split; assumption.
  - destruct (Hh e s1) as (evs2 & Hev2 & Hf2). exists (evs ++ evs2).
    rewrite Hev2, Hev, app_assoc. split; [reflexivity|apply Forall_app; split; assumption].
Qed.

Lemma no_repl_emit (e : Event) : is_replication_event e = false -> no_repl (emit PS e).
Proof. intros He s. exists [e]. split; [reflexivity|repeat constructor; exact He]. Qed.

Lemma no_repl_cache_get (id : string) : no_repl (cache_get PS id).
Proof. intros s. exists []. split; [now rewrite app_nil_r|constructor]. Qed.

Lemma no_repl_cache_set (id : string) (md : StorageMetadata) : no_repl (cache_set PS id md).
Proof. intros s. exists []. split; [now rewrite app_nil_r|constructor]. Qed.

Lemma no_repl_with_provider {A} (i : nat) (op : StorageProvider PS -> PS -> Result A * PS) :
  no_repl (with_provider PS providers i op).
Proof.
  intros s. exists []. rewrite app_nil_r. split; [|constructor].
  unfold with_provider. destruct (nth_error providers i) as [[nm p]|]; [|reflexivity].
  destruct (op p (ms_pstate PS s i)). reflexivity.
Qed.

Lemma keeps_cache_ret {A} (a : A) : keeps_cache (ret PS a).
Proof. intros s. reflexivity. Qed.

Lemma keeps_cache_throw {A} (e : Error) : keeps_cache (A := A) (throw PS e).
Proof. intros s. reflexivity. Qed.

Lemma keeps_cache_bind {A B} (m : M PS A) (k : A -> M PS B) :
  keeps_cache m -> (forall a, keeps_cache (k a)) -> keeps_cache (bind PS m k).
Proof.
  intros Hm Hk s. unfold bind. specialize (Hm s).
  destruct (m s) as [[a|e] s1]; cbn [snd] in Hm |- *; [rewrite Hk; exact Hm|exact Hm].
Qed.

Lemma keeps_cache_catch {A} (m : M PS A) (h : Error -> M PS A) :
  keeps_cache m -> (forall e, keeps_cache (h e)) -> keeps_cache (catch PS m h).
Proof.
  intros Hm Hh s. unfold catch. specialize (Hm s).
  destruct (m s) as [[a|e] s1]; cbn [snd] in Hm |- *; [exact Hm|rewrite Hh; exact Hm].
Qed.

Lemma keeps_cache_emit (e : Event) : keeps_cache (emit PS e).
Proof. intros s. reflexivity. Qed.

Lemma keeps_cache_with_provider {A} (i : nat) (op : StorageProvider PS -> PS -> Result A * PS) :
  keeps_cache (with_provider PS providers i op).
Proof.
  intros s. unfold with_provider. destruct (nth_error providers i) as [[nm p]|]; [|reflexivity].
  destruct (op p (ms_pstate PS s i)). reflexivity.
Qed.

Lemma no_repl_findMetadata_loop (id : string) (ps : list nat) :
  no_repl (findMetadata_loop PS providers id ps).
Proof.
  induction ps as [|i rest IH]; cbn [findMetadata_loop]; [apply no_repl_ret|].
  apply no_repl_bind.
  - apply no_repl_catch; [|intros; apply no_repl_ret].
    apply no_repl_bind; [apply no_repl_with_provider|intros; apply no_repl_ret].
  - intros [[m|]|]; [apply no_repl_ret|exact IH|exact IH].
Qed.

Lemma no_repl_retrieve_attempt (id : string) (md : StorageMetadata) (i : nat) :
  no_repl (retrieve_attempt PS providers id md i).
Proof.
  unfold retrieve_attempt.
  apply no_repl_bind; [apply no_repl_with_provider|intros d].
  apply no_repl_bind; [apply no_repl_with_provider|intros ok].
  destruct (negb ok); [apply no_repl_throw|].
  apply no_repl_bind; [apply no_repl_emit; reflexivity|intros; apply no_repl_ret].
Qed.

Lemma no_repl_retrieve_loop (id : string) (md : StorageMetadata) (ps : list nat) :
  forall lastError, no_repl (retrieve_loop PS providers id md ps lastError).
Proof.
  induction ps as [|i rest IH]; intros le; cbn [retrieve_loop]; [apply no_repl_throw|].
  apply no_repl_catch; [apply no_repl_retrieve_attempt|intros e; apply IH].
Qed.

Lemma no_repl_retrieve (id : string) (pref : option string) :
  no_repl (retrieve PS providers id pref).
Proof.
  unfold retrieve. apply no_repl_bind; [apply no_repl_cache_get|intros cached].
  apply no_repl_bind.
  - destruct cached as [m|]; [apply no_repl_ret|].
    apply no_repl_bind; [apply no_repl_findMetadata_loop|intros [m|]; [|apply no_repl_ret]].
    apply no_repl_bind; [apply no_repl_cache_set|intros; apply no_repl_ret].
  - intros [m|]; [|apply no_repl_throw]. cbv zeta.
    destruct (getProvidersForMetadata PS providers m) as [|x xs]; [apply no_repl_throw|].
    apply no_repl_bind.
    + destruct (truthy pref); [|apply no_repl_ret].
      destruct (option_map (provider_index PS providers) pref) as [[i|]|]; [|apply no_repl_ret|apply no_repl_ret].
      apply no_repl_catch; [|intros; apply no_repl_ret].
      apply no_repl_bind; [apply no_repl_with_provider|intros; apply no_repl_ret].
    + intros [d|]; [apply no_repl_ret|apply no_repl_retrieve_loop].
Qed.

Lemma keeps_cache_retrieve_loop (id : string) (md : StorageMetadata) (ps : list nat) :
  forall lastError, keeps_cache (retrieve_loop PS providers id md ps lastError).
Proof.
  induction ps as [|i rest IH]; intros le; cbn [retrieve_loop]; [apply keeps_cache_throw|].
  apply keeps_cache_catch; [|intros e; apply IH].
  unfold retrieve_attempt.
  apply keeps_cache_bind; [apply keeps_cache_with_provider|intros d].
  apply keeps_cache_bind; [apply keeps_cache_with_provider|intros ok].
  destruct (negb ok); [apply keeps_cache_throw|].
  apply keeps_cache_bind; [apply keeps_cache_emit|intros; apply keeps_cache_ret].
Qed.

(** [retrieve(id)] on a state whose cache holds metadata for [id] leaves the
    cache as it is. *)
Lemma retrieve_cached_keeps_cache (id : string) (md : StorageMetadata) (s : MState PS) :
  find (fun kv => String.eqb (fst kv) id) (ms_cache PS s) = Some (id, md) ->
  ms_cache PS (snd (retrieve PS providers id None s)) = ms_cache PS s.
Proof.
  intros Hc. unfold retrieve. unfold bind at 1, cache_get. rewrite Hc. cbn [option_map snd].
  unfold bind at 1, ret at 1. cbv zeta.
  destruct (getProvidersForMetadata PS providers md) as [|x xs]; [reflexivity|].
  unfold bind at 1, ret at 1. cbn [truthy].
  apply keeps_cache_retrieve_loop.
Qed.

Lemma replicateToProvider_events (md : StorageMetadata) (i : nat) (o : option StorageOptions)
    (s : MState PS) :
  exists evs, ms_events PS (snd (replicateToProvider PS providers md i o s)) = ms_events PS s ++ evs /\
              replication_targets evs = [i].
Proof.
  assert (Hnr : forall evs, Forall (fun e => is_replication_event e = false) evs ->
                            replication_targets evs = []).
  { induction 1 as [|e evs He _ IH]; [reflexivity|].
    destruct e; try discriminate He; exact IH. }
  unfold replicateToProvider, catch, replicate_try.
  unfold bind at 1.
  destruct (no_repl_retrieve (md_id md) None s) as (evs1 & Hev1 & Hf1).
  destruct (retrieve PS providers (md_id md) None s) as [[d|e] s1]; cbn [snd] in Hev1 |- *.
  - unfold bind at 1.
    destruct (no_repl_with_provider i
                (fun p => prov_store PS p d (Some (mkOptions (Some 1)))) s1) as (evs2 & Hev2 & Hf2).
    destruct (with_provider PS providers i
                (fun p => prov_store PS p d (Some (mkOptions (Some 1)))) s1) as [[m|e] s2];
      cbn [snd] in Hev2 |- *; unfold emit; cbn [snd ms_events].
    + exists (evs1 ++ evs2 ++ [EvReplicated (md_id md) i]).
      rewrite Hev2, Hev1, !app_assoc. split; [reflexivity|].
      unfold replication_targets. rewrite !flat_map_app.
      fold (replication_targets evs1). fold (replication_targets evs2).
      rewrite (Hnr _ Hf1), (Hnr _ Hf2). reflexivity.
    + exists (evs1 ++ evs2 ++ [EvReplicationFailed (md_id md) i e]).
      rewrite Hev2, Hev1, !app_assoc. split; [reflexivity|].
      unfold replication_targets. rewrite !flat_map_app.
      fold (replication_targets evs1). fold (replication_targets evs2).
      rewrite (Hnr _ Hf1), (Hnr _ Hf2). reflexivity.
  - unfold emit. cbn [snd ms_events].
    exists (evs1 ++ [EvReplicationFailed (md_id md) i e]).
    rewrite Hev1, app_assoc. split; [reflexivity|].
    unfold replication_targets. rewrite flat_map_app.
    fold (replication_targets evs1). rewrite (Hnr _ Hf1). reflexivity.
Qed.

Lemma replicate_all_events (md : StorageMetadata) (ts : list nat) (o : option StorageOptions) :
  forall s : MState PS,
  exists evs, ms_events PS (snd (replicate_all PS providers md ts o s)) = ms_events PS s ++ evs /\
              replication_targets evs = ts.
Proof.
  induction ts as [|i ts IH]; intros s.
  - exists []. split; [now rewrite app_nil_r|reflexivity].
  - cbn [replicate_all]. unfold bind.
    destruct (replicateToProvider_events md i o s) as (evs1 & Hev1 & Ht1).
    pose proof (replicateToProvider_ok PS providers md i o s) as Hok.
    destruct (replicateToProvider PS providers md i o s) as [[u|e] s1];
      cbn [fst snd] in Hok, Hev1 |- *; [|discriminate].
    destruct (IH s1) as (evs2 & Hev2 & Ht2).
    exists (evs1 ++ evs2). rewrite Hev2, Hev1, app_assoc. split; [reflexivity|].
    unfold replication_targets in *. rewrite flat_map_app, Ht1, Ht2. reflexivity.
Qed.

Lemma replicate_all_keeps_cache (md : StorageMetadata) (ts : list nat) (o : option StorageOptions) :
  forall s : MState PS,
  find (fun kv => String.eqb (fst kv) (md_id md)) (ms_cache PS s) = Some (md_id md, md) ->
  ms_cache PS (snd (replicate_all PS providers md ts o s)) = ms_cache PS s.
Proof.
  induction ts as [|i ts IH]; intros s Hc; [reflexivity|].
  cbn [replicate_all]. unfold bind at 1.
  assert (Hk : ms_cache PS (snd (replicateToProvider PS providers md i o s)) = ms_cache PS s).
  { unfold replicateToProvider, catch, replicate_try, bind at 1.
    pose proof (retrieve_cached_keeps_cache (md_id md) md s Hc) as Hr.
    destruct (retrieve PS providers (md_id md) None s) as [[d|e] s1]; cbn [snd] in Hr |- *;
      [|unfold emit; cbn [snd ms_cache]; exact Hr].
    unfold bind at 1.
    pose proof (keeps_cache_with_provider i
                  (fun p => prov_store PS p d (Some (mkOptions (Some 1)))) s1) as Hw.
    destruct (with_provider PS providers i
                (fun p => prov_store PS p d (Some (mkOptions (Some 1)))) s1) as [[m|e] s2];
      cbn [snd] in Hw |- *; unfold emit; cbn [snd ms_cache]; congruence. }
  pose proof (replicateToProvider_ok PS providers md i o s) as Hok.
  destruct (replicateToProvider PS providers md i o s) as [[u|e] s1];
    cbn [fst snd] in Hok, Hk |- *; [|discriminate].
  rewrite IH; [exact Hk|]. rewrite Hk. exact Hc.
Qed.

End StorageManagerFrames.

Lemma js_slice_prefix_nil {A} (n : Z) : js_slice_prefix (@nil A) n = [].
Proof. unfold js_slice_prefix. destruct (n <? 0); apply firstn_nil. Qed.

(* ------------------------------------------------------------------------ *)
(** ** Extra properties of the storage manager *)

(** When the primary provider's [store] resolves with [md] and the request
    does not set [replicas] to 0, [store] appends events in which the
    [replicated]/[replication-failed] events name exactly the secondary
    providers [providers.slice(1).slice(0, rf - 1)], each once, where [rf] is
    [options.replicas ?? config.replicationFactor ?? 1] (so [rf = 0] drops
    only the last provider), followed by one [stored] event. The model runs
    the replications of [Promise.allSettled] one after the other; the
    statement does not depend on their order. *)
Theorem store_replication_targets (PS : Type) (providers : list (string * StorageProvider PS))
    (config : StorageManagerConfig) (request : StorageRequest) (s : MState PS)
    (primary : nat) (secondaries : list nat) (name : string) (p : StorageProvider PS)
    (md : StorageMetadata) (v : PS) :
  getProvidersForStrategy PS providers (resolve_strategy config request) = primary :: secondaries ->
  nth_error providers primary = Some (name, p) ->
  prov_store PS p (req_data request) (req_options request) (ms_pstate PS s primary) = (Ok md, v) ->
  option_replicas (req_options request) <> Some 0 ->
  exists evs,
    ms_events PS (snd (store PS providers config request s)) =
      ms_events PS s ++ evs ++
        [EvStored (md_id md) (md_size md) (S (length secondaries)) (resolve_strategy config request)] /\
    Permutation (replication_targets evs)
      (js_slice_prefix secondaries
        (match option_replicas (req_options request) with
         | Some r => r
         | None => match replicationFactor config with Some r => r | None => 1 end
         end - 1)).
Proof.
  intros Hps H0 Hst Hr. unfold store. rewrite Hps.
  unfold catch. unfold bind at 1. unfold with_provider at 1. rewrite H0, Hst.
  unfold bind, cache_set, emit, ret.
  cbn [ms_pstate ms_cache ms_events].
  destruct (Nat.ltb 1 (length (primary :: secondaries))
            && negb (match option_replicas (req_options request) with
                     | Some r => r =? 0 | None => false end)) eqn:Hc.
  - match goal with |- context [handleReplication ?P ?pr ?cf ?a ?b ?c ?d] =>
      pose proof (handleReplication_ok P pr cf a b c d) as Hok;
      pose proof (replicate_all_events P pr a (js_slice_prefix b
        (match option_replicas c with
         | Some r => r
         | None => match replicationFactor cf with Some r => r | None => 1 end
         end - 1)) c d) as (evs & Hev & Ht);
      unfold handleReplication in Hok |- *;
      destruct (replicate_all P pr a _ c d) as [[[]|e] s3] end;
      cbn [fst snd] in Hok, Hev |- *; [|discriminate].
    exists evs. cbn [ms_events] in Hev. rewrite Hev, <- app_assoc. split; [reflexivity|rewrite Ht; reflexivity].
  - exists []. split; [reflexivity|].
    destruct secondaries as [|x xs]; [rewrite js_slice_prefix_nil; reflexivity|].
    exfalso. cbn [length Nat.ltb Nat.leb andb] in Hc.
    destruct (option_replicas (req_options request)) as [r|]; [|discriminate].
    destruct (Z.eqb_spec r 0) as [->|]; [apply Hr; reflexivity|discriminate].
Qed.

(** Once [getMetadata(id)] has resolved with metadata [md], a second
    [getMetadata(id)] resolves with [md] from the cache and changes nothing
    (no provider is asked). *)
Theorem getMetadata_cached (PS : Type) (providers : list (string * StorageProvider PS))
    (id : string) (s s1 : MState PS) (md : StorageMetadata) :
  getMetadata PS providers id s = (Ok (Some md), s1) ->
  getMetadata PS providers id s1 = (Ok (Some md), s1).
Proof.
  intros H.
  assert (Hhit : forall m, find (fun kv => String.eqb (fst kv) id) (ms_cache PS s1) = Some (id, m) ->
                 m = md -> getMetadata PS providers id s1 = (Ok (Some md), s1)).
  { intros m Hm <-. unfold getMetadata, bind, cache_get. rewrite Hm. reflexivity. }
  unfold getMetadata, bind, cache_get in H.
  destruct (find (fun kv => String.eqb (fst kv) id) (ms_cache PS s)) as [[k m]|] eqn:Hc;
    cbn [option_map snd] in H.
  - unfold ret in H. injection H as <- <-.
    destruct (find_some _ _ Hc) as [_ Hk]. cbn [fst] in Hk. apply String.eqb_eq in Hk. subst k.
    apply (Hhit m Hc eq_refl).
  - destruct (findMetadata PS providers id s) as [[[m|]|e] s2]; [|discriminate|discriminate].
    unfold cache_set, ret in H. injection H as <- <-.
    apply (Hhit m); [|reflexivity].
    cbn [ms_cache find fst]. rewrite String.eqb_refl. reflexivity.
Qed.

Lemma store_ok_cached (PS : Type) (providers : list (string * StorageProvider PS))
    (config : StorageManagerConfig) (request : StorageRequest) (s : MState PS) (md : StorageMetadata) :
  fst (store PS providers config request s) = Ok md ->
  find (fun kv => String.eqb (fst kv) (md_id md)) (ms_cache PS (snd (store PS providers config request s)))
    = Some (md_id md, md).
Proof.
  remember (store PS providers config request s) as R eqn:HR.
  unfold store in HR.
  destruct (getProvidersForStrategy PS providers (resolve_strategy config request))
    as [|primary secondaries]; [subst R; discriminate|].
  unfold catch, bind at 1 in HR. cbv beta in HR.
  destruct (with_provider PS providers primary
              (fun p => prov_store PS p (req_data request) (req_options request)) s)
    as [[m|e] s1]; [|subst R; discriminate].
  unfold bind, cache_set, emit, ret in HR. cbv beta iota zeta in HR.
  set (s2 := mkMState PS (ms_pstate PS s1) ((md_id m, m) :: ms_cache PS s1) (ms_events PS s1)) in HR.
  assert (Hc : find (fun kv => String.eqb (fst kv) (md_id m)) (ms_cache PS s2) = Some (md_id m, m)).
  { cbn [s2 ms_cache find fst]. rewrite String.eqb_refl. reflexivity. }
  destruct (Nat.ltb 1 (length (primary :: secondaries))
            && negb (match option_replicas (req_options request) with
                     | Some r => r =? 0 | None => false end)).
  - unfold handleReplication in HR.
    match type of HR with context [replicate_all ?P ?pr ?a ?ts ?o s2] =>
      pose proof (replicate_all_ok P pr a ts o s2) as Hok;
      pose proof (replicate_all_keeps_cache P pr a ts o s2 Hc) as Hk;
      destruct (replicate_all P pr a ts o s2) as [[[]|e] s3] end;
      cbn [fst snd] in Hok, Hk; [|discriminate].
    subst R. cbn [fst snd ms_cache]. intros H. injection H as <-. rewrite Hk. exact Hc.
  - subst R. cbn [fst snd ms_cache]. intros H. injection H as <-. exact Hc.
Qed.

(** Once [store(request)] has resolved with metadata [md], [getMetadata(md.id)]
    resolves with [md] from the cache and changes nothing, whatever the
    replication did. *)
Theorem store_then_getMetadata (PS : Type) (providers : list (string * StorageProvider PS))
    (config : StorageManagerConfig) (request : StorageRequest) (s : MState PS) (md : StorageMetadata) :
  fst (store PS providers config request s) = Ok md ->
  getMetadata PS providers (md_id md) (snd (store PS providers config request s)) =
    (Ok (Some md), snd (store PS providers config request s)).
Proof.
  intros H. pose proof (store_ok_cached PS providers config request s md H) as Hc.
  unfold getMetadata, bind, cache_get. rewrite Hc. reflexivity.
Qed.

(** [store(request)] rejects with [NO_PROVIDERS] and changes nothing when the
    strategy selects no provider; when the primary provider's [store] rejects
    with [e], [store] rejects with [STORE_ERROR] carrying [e], caches nothing,
    emits nothing, and only the primary's state changes. *)
Theorem store_errors (PS : Type) (providers : list (string * StorageProvider PS))
    (config : StorageManagerConfig) (request : StorageRequest) (s : MState PS) :
  (getProvidersForStrategy PS providers (resolve_strategy config request) = [] ->
   store PS providers config request s = (Err (StorageError NO_PROVIDERS None NoDetails), s)) /\
  (forall primary secondaries name p e v,
     getProvidersForStrategy PS providers (resolve_strategy config request) = primary :: secondaries ->
     nth_error providers primary = Some (name, p) ->
     prov_store PS p (req_data request) (req_options request) (ms_pstate PS s primary) = (Err e, v) ->
     store PS providers config request s =
       (Err (StorageError STORE_ERROR None (Cause e)),
        mkMState PS (update_pstate PS (ms_pstate PS s) primary v) (ms_cache PS s) (ms_events PS s))).
Proof.
  split.
  - intros Hps. unfold store. rewrite Hps. reflexivity.
  - intros primary secondaries name p e v Hps H0 Hst. unfold store. rewrite Hps.
    unfold catch, bind at 1, with_provider at 1. rewrite H0, Hst. reflexivity.
Qed.

(** [retrieve(id, options)] only appends events to the event log, and none of
    them is a [replicated] or [replication-failed] event; when the metadata
    cache already holds [id], [retrieve(id)] leaves the cache as it is. *)
Theorem retrieve_events_cache (PS : Type) (providers : list (string * StorageProvider PS))
    (id : string) (pref : option string) (s : MState PS) :
  (exists evs, ms_events PS (snd (retrieve PS providers id pref s)) = ms_events PS s ++ evs /\
               Forall (fun e => is_replication_event e = false) evs) /\
  (forall md, find (fun kv => String.eqb (fst kv) id) (ms_cache PS s) = Some (id, md) ->
   ms_cache PS (snd (retrieve PS providers id None s)) = ms_cache PS s).
Proof.
  split; [apply no_repl_retrieve|].
  intros md. apply retrieve_cached_keeps_cache.
Qed.

Lemma split_loop_zero (calculateChecksum : Buffer -> string) (data : Buffer) (now : Z) :
  forall fuel offset index, (offset < length data)%nat ->
  split_loop calculateChecksum fuel data 0 now offset index = None.
Proof.
  induction fuel as [|fuel IH]; intros offset index Hlt; [reflexivity|].
  cbn [split_loop]. rewrite (proj2 (Nat.ltb_lt _ _) Hlt).
  rewrite Nat.min_0_l, Nat.add_0_r, IH by exact Hlt. reflexivity.
Qed.

(** [split] of an empty buffer yields no chunk whatever the chunk size, and
    [split(data, 0)] of a non-empty buffer never returns: the offset never
    advances, so no amount of iterations ends the loop. *)
Theorem split_empty_and_zero_size (calculateChecksum : Buffer -> string) (data : Buffer) (now : Z) :
  (forall chunkSize, split calculateChecksum [] chunkSize now = Some []) /\
  (data <> [] ->
   forall fuel, split_loop calculateChecksum fuel data 0 now 0 0 = None).
Proof.
  split; [reflexivity|].
  intros Hne fuel. apply split_loop_zero.
  destruct data; [contradiction|]. cbn. lia.
Qed.

(* ------------------------------------------------------------------------ *)
(** ** Instances of the extra routing-table and storage properties *)

Definition ops_one : list RoutingOp := [OpAddPeer (peer_at id_one 0) 0; OpAddPeer (peer_at id_three 0) 0].

Definition table_one : KBucket :=
  match run_ops empty_table ops_one with Some kb => kb | None => empty_table end.

Definition table_one_removed : KBucket :=
  match removePeer table_one id_one 5 with Some kb => kb | None => table_one end.

Lemma getClosestPeers_closest_witness :
  0 <= 1 /\
  length (getClosestPeers table_one id_two (Some 1)) = Nat.min (Z.to_nat 1) (size table_one) /\
  exists rest,
    Permutation (getClosestPeers table_one id_two (Some 1) ++ rest) (getAllPeers table_one) /\
    forall p q, In p (getClosestPeers table_one id_two (Some 1)) -> In q rest ->
      be_value (distance (pi_id p) id_two) <= be_value (distance (pi_id q) id_two).
Proof.
  split; [lia|]. apply (getClosestPeers_closest table_one id_two 1). lia.
Defined.

Lemma getPeer_after_addPeer_witness :
  nth_error (buckets empty_table) (getBucketIndex empty_table (pi_id (peer_at id_one 0)))
    = Some (mkBucket [] 0) /\
  exists kb',
    addPeer empty_table (peer_at id_one 0) 5 = Some kb' /\
    getPeer kb' (pi_id (peer_at id_one 0)) =
      if existsb (fun p => String.eqb (pi_id p) (pi_id (peer_at id_one 0))) (peers (mkBucket [] 0))
         || Nat.ltb (length (peers (mkBucket [] 0))) (kSize empty_table)
         || match findStalePeer (mkBucket [] 0) 5 with Some _ => true | None => false end
      then Some (Some (refreshed (peer_at id_one 0) 5)) else Some None.
Proof.
  assert (H : nth_error (buckets empty_table) (getBucketIndex empty_table (pi_id (peer_at id_one 0)))
              = Some (mkBucket [] 0)) by (vm_compute; reflexivity).
  split; [exact H|].
  exact (getPeer_after_addPeer empty_table (peer_at id_one 0) 5 (mkBucket [] 0) H).
Defined.

Lemma getPeer_after_removePeer_witness :
  run_ops (new_KBucket id_zero 20 256 0) ops_one = Some table_one /\
  removePeer table_one id_one 5 = Some table_one_removed /\
  getPeer table_one_removed id_one = Some None.
Proof.
  assert (H1 : run_ops (new_KBucket id_zero 20 256 0) ops_one = Some table_one)
    by (vm_compute; reflexivity).
  assert (H2 : removePeer table_one id_one 5 = Some table_one_removed)
    by (vm_compute; reflexivity).
  split; [exact H1|]. split; [exact H2|].
  exact (getPeer_after_removePeer id_zero 20 0 ops_one table_one table_one_removed id_one 5 H1 H2).
Defined.

Lemma size_stats_capacity_witness :
  run_ops (new_KBucket id_zero 20 256 0) ops_one = Some table_one /\
  totalPeers (getBucketStats table_one) = size table_one /\
  length (getAllPeers table_one) = size table_one /\
  (size table_one <= 256 * 20)%nat.
Proof.
  assert (H1 : run_ops (new_KBucket id_zero 20 256 0) ops_one = Some table_one)
    by (vm_compute; reflexivity).
  split; [exact H1|].
  exact (size_stats_capacity id_zero 20 0 ops_one table_one H1).
Defined.

Lemma store_replication_targets_witness :
  getProvidersForStrategy nat ex_providers (resolve_strategy ex_config ex_request) = [0%nat; 1%nat] /\
  nth_error ex_providers 0 = Some ("local"%string, ok_provider) /\
  prov_store nat ok_provider (req_data ex_request) (req_options ex_request)
    (ms_pstate nat ex_state 0) = (Ok ex_md, 1%nat) /\
  option_replicas (req_options ex_request) <> Some 0 /\
  exists evs,
    ms_events nat (snd (store nat ex_providers ex_config ex_request ex_state)) =
      ms_events nat ex_state ++ evs ++
        [EvStored (md_id ex_md) (md_size ex_md) (S (length [1%nat])) (resolve_strategy ex_config ex_request)] /\
    Permutation (replication_targets evs)
      (js_slice_prefix [1%nat]
        (match option_replicas (req_options ex_request) with
         | Some r => r
         | None => match replicationFactor ex_config with Some r => r | None => 1 end
         end - 1)).
Proof.
  assert (Hr : option_replicas (req_options ex_request) <> Some 0) by discriminate.
  split; [reflexivity|]. split; [reflexivity|]. split; [reflexivity|]. split; [exact Hr|].
  exact (store_replication_targets nat ex_providers ex_config ex_request ex_state 0%nat [1%nat]
           "local"%string ok_provider ex_md 1%nat eq_refl eq_refl eq_refl Hr).
Defined.

Lemma getMetadata_cached_witness :
  getMetadata nat ex_providers "d1" ex_state =
    (Ok (Some ex_md), snd (getMetadata nat ex_providers "d1" ex_state)) /\
  getMetadata nat ex_providers "d1" (snd (getMetadata nat ex_providers "d1" ex_state)) =
    (Ok (Some ex_md), snd (getMetadata nat ex_providers "d1" ex_state)).
Proof.
  assert (H : getMetadata nat ex_providers "d1" ex_state =
                (Ok (Some ex_md), snd (getMetadata nat ex_providers "d1" ex_state)))
    by (vm_compute; reflexivity).
  split; [exact H|].
  exact (getMetadata_cached nat ex_providers "d1" ex_state _ ex_md H).
Defined.

Lemma store_then_getMetadata_witness :
  fst (store nat ex_providers ex_config ex_request ex_state) = Ok ex_md /\
  getMetadata nat ex_providers (md_id ex_md) (snd (store nat ex_providers ex_config ex_request ex_state)) =
    (Ok (Some ex_md), snd (store nat ex_providers ex_config ex_request ex_state)).
Proof.
  assert (H : fst (store nat ex_providers ex_config ex_request ex_state) = Ok ex_md)
    by (vm_compute; reflexivity).
  split; [exact H|].
  exact (store_then_getMetadata nat ex_providers ex_config ex_request ex_state ex_md H).
Defined.



Lemma validateMessage_accepts_present_empty_key_witness :
  truthy (msg_dhtType msg_empty_key) = true /\
  truthy (pl_sender (msg_payload msg_empty_key)) = true /\
  truthy (msg_protocol msg_empty_key) = true /\
  truthy (msg_version msg_empty_key) = true /\
  pl_key (msg_payload msg_empty_key) = Some EmptyString /\
  Z.abs (1000 - 1000) <= MAX_TIME_DIFF /\
  key_regex_test EmptyString = false /\ validateMessage 1000 msg_empty_key = true.
Proof.
  assert (Ht : Z.abs (1000 - 1000) <= MAX_TIME_DIFF) by (vm_compute; discriminate).
  do 5 (split; [reflexivity|]). split; [exact Ht|].
  exact (validateMessage_accepts_present_empty_key 1000 msg_empty_key
           eq_refl eq_refl eq_refl eq_refl eq_refl Ht).
Defined.
